(** * Crunchyroll extractor: version selection, merge and format extraction

    A shallow embedding of the algorithmic core of
    [yt_dlp/extractor/crunchyroll.py] (class [CrunchyrollBaseIE] and the
    entry point of [CrunchyrollBetaIE]) together with the properties its
    specification states about it.

    Representation choices.
    - A Python [dict] whose iteration order the code relies on
      ([responses], [available_formats]) is an association list with
      unique keys: assignment overwrites in place or appends, [popitem]
      removes the last entry.
    - A Python [dict] that is only read by key (an info dict, a format
      entry, a subtitle map) is a [gmap string _].
    - A Python [set] is a [gset]; the code never depends on its order.
    - Exceptions are an error type [exn]; fallible code returns
      [exn + A].
    - Messages printed with [only_once=True] are threaded as the list of
      messages printed so far. *)

From Stdlib Require Import Ascii String ZArith.
From stdpp Require Import base numbers list strings gmap fin_maps.

Local Open Scope string_scope.
Local Open Scope list_scope.

(** ** Strings *)

Module PyStr.

(** [str.lower] and [str.casefold] on the ASCII range: locale and
    stream-type names are ASCII. *)
Definition lower_ascii (c : ascii) : ascii :=
  let n := nat_of_ascii c in
  if bool_decide (65 ≤ n ∧ n ≤ 90)%nat then ascii_of_nat (n + 32)%nat else c.

Fixpoint lower (s : string) : string :=
  match s with
  | EmptyString => EmptyString
  | String c s' => String (lower_ascii c) (lower s')
  end.

Definition casefold : string → string := lower.

(** The ASCII characters [str.strip()] removes. *)
Definition is_space (c : ascii) : bool :=
  let n := nat_of_ascii c in
  bool_decide (9 ≤ n ∧ n ≤ 13)%nat || bool_decide (28 ≤ n ∧ n ≤ 32)%nat.

Fixpoint lstrip (s : string) : string :=
  match s with
  | EmptyString => EmptyString
  | String c s' => if is_space c then lstrip s' else s
  end.

Definition strip (s : string) : string :=
  String.rev (lstrip (String.rev (lstrip s))).

(** [s.endswith(suffix)] *)
Definition endswith (s suffix : string) : bool :=
  String.prefix (String.rev suffix) (String.rev s).

(** Truth value of a string: the empty string is falsy. *)
Definition truthy (s : string) : bool := negb (bool_decide (s = "")).

End PyStr.

(** ** Python values *)

(** The values an info dict or a format entry holds.  Scalars are
    hashable; lists and dicts are not.  A number is an integer here: the
    code copies and compares the numbers of an info dict and does no
    arithmetic on them. *)
#[warnings="-register-all"]
Inductive Value : Type :=
| VNone
| VInt (n : Z)
| VStr (s : string)
| VList (l : list Value)
| VDict (d : list (string * Value)).

(** [isinstance(value, typing.Hashable)] *)
Definition hashable (v : Value) : bool :=
  match v with
  | VNone | VInt _ | VStr _ => true
  | VList _ | VDict _ => false
  end.

(** [==] between a hashable value and any value. *)
Definition scalar_eqb (a b : Value) : bool :=
  match a, b with
  | VNone, VNone => true
  | VInt n, VInt m => bool_decide (n = m)
  | VStr s, VStr t => bool_decide (s = t)
  | _, _ => false
  end.

(** ** Exceptions *)

Inductive exn : Type :=
| ExtractorError (msg : string)
| AttributeError
| KeyError.

(** ** Insertion-ordered dictionaries *)

Module Dict.
Section dict.
Context {K V : Type} `{EqDecision K}.

(** [d.get(k)] *)
Fixpoint get (k : K) (d : list (K * V)) : option V :=
  match d with
  | [] => None
  | (k', v) :: d' => if bool_decide (k' = k) then Some v else get k d'
  end.

(** [d[k] = v]: an existing key keeps its position. *)
Fixpoint set (k : K) (v : V) (d : list (K * V)) : list (K * V) :=
  match d with
  | [] => [(k, v)]
  | (k', v') :: d' =>
      if bool_decide (k' = k) then (k, v) :: d' else (k', v') :: set k v d'
  end.

(** The dictionary left after [d.pop(k, None)]. *)
Fixpoint remove (k : K) (d : list (K * V)) : list (K * V) :=
  match d with
  | [] => []
  | (k', v) :: d' => if bool_decide (k' = k) then d' else (k', v) :: remove k d'
  end.

(** [d.popitem()]: the entry inserted last, and the rest; [None] stands
    for the [KeyError] on an empty dictionary. *)
Fixpoint popitem (d : list (K * V)) : option ((K * V) * list (K * V)) :=
  match d with
  | [] => None
  | [kv] => Some (kv, [])
  | kv :: d' =>
      match popitem d' with
      | Some (last, rest) => Some (last, kv :: rest)
      | None => None
      end
  end.

Definition keys (d : list (K * V)) : list K := d.*1.
Definition values (d : list (K * V)) : list V := d.*2.

End dict.
End Dict.

(** ** The version catalog *)

(** A sibling version descriptor of [<type>_metadata.versions]. *)
Record Version : Type := mkVersion {
  guid : option string;
  audio_locales : list string;
  audio_locale : option string
}.

(** [CrunchyrollBaseIE._DEFAULT_LANG] *)
Definition _DEFAULT_LANG : string := "@@default".

Definition lang_formatter (v : string) : string := PyStr.strip (PyStr.casefold v).

(** [wrap_in_list = lambda v: v and [v]]; the empty string it returns for
    an empty [v] adds nothing to the set it is merged into. *)
Definition wrap_in_list (v : string) : list string :=
  if PyStr.truthy v then [v] else [].

Definition _get_audio_langs_from_data (data : Version) : gset string :=
  let audio_langs : gset string := list_to_set (lang_formatter <$> audio_locales data) in
  audio_langs ∪
    list_to_set (match audio_locale data with
                 | Some v => wrap_in_list (lang_formatter v)
                 | None => []
                 end).

(** Truth value of [version.get('guid')]. *)
Definition truthy_id (vid : option string) : bool :=
  match vid with
  | Some s => PyStr.truthy s
  | None => false
  end.

(** A row of the language table: version id and language, where the
    language [None] is the unknown language. *)
Definition VersionRow : Type := option string * option string.

(** [langs or [None]] *)
Definition langs_or_unknown (langs : gset string) : list (option string) :=
  match elements langs with
  | [] => [None]
  | ls => Some <$> ls
  end.

(** The rows one [(vid, langs)] pair contributes to the second
    comprehension. *)
Definition lang_rows (entry : option string * gset string) : list VersionRow :=
  let '(vid, langs) := entry in
  if truthy_id vid then (λ lang, (vid, lang)) <$> langs_or_unknown langs else [].

(** The rows one version descriptor contributes. *)
Definition version_rows (version : Version) : list VersionRow :=
  lang_rows (guid version, _get_audio_langs_from_data version).

(** Lines 180-182 of [_get_responses_for_langs]. *)
Definition build_lang_table (internal_id : string) (versions : list Version)
  : list VersionRow :=
  let lang_table := (λ version, (guid version, _get_audio_langs_from_data version)) <$> versions in
  let lang_table := lang_table ≫= lang_rows in
  lang_table ++ [(Some internal_id, Some _DEFAULT_LANG)].

(** ** Fetching the selected versions *)

(** The [<type>_metadata] member of a response. *)
Record Metadata : Type := mkMetadata {
  versions : option (list Version)
}.

(** An object of the content API, [data[0]] of the reply: its [type], its
    [<type>_metadata] members by name, and its remaining members. *)
Record Response : Type := mkResponse {
  object_type : option string;
  members : list (string * Metadata);
  fields : gmap string Value
}.

(** [get_meta_from_response] (lines 166-168): the [<type>_metadata] member
    of a response whose [type] is not empty. *)
Definition get_meta_from_response (response : Response) : option Metadata :=
  match object_type response with
  | Some t => if PyStr.truthy t then Dict.get (t ++ "_metadata")%string (members response) else None
  | None => None
  end.

(** [(default_meta and traverse_obj(default_meta, 'versions')) or []] *)
Definition versions_of (default_meta : option Metadata) : list Version :=
  match default_meta with
  | Some m => default [] (versions m)
  | None => []
  end.

(** Modelled from the spec: [to_screen(msg, only_once=True)] of the
    downloader, which is not part of this file; a one-time message is
    printed unless the same message was printed before. *)
Definition to_screen_once (msg : string) (screen : list string) : list string :=
  if bool_decide (msg ∈ screen) then screen else screen ++ [msg].

Definition not_found_message (vid : string) : string :=
  "Requested video version with id " ++ vid ++ " could not be found (possibly region locked?)".

Definition no_video_message (internal_id : string) : string :=
  "No video with id " ++ internal_id ++ " could be found (possibly region locked?)".

Section responses.
(** [LangSelector.keep_table_matches] of [yt_dlp.utils], applied to the
    selector built from the requested languages: the ordered ids to
    fetch. *)
Variable keep_table_matches : list VersionRow → list string.
(** [get_response_by_id]: the object, [None] when it is not found (the
    code treats every falsy reply alike), or a fatal error of the API
    call. *)
Variable get_response_by_id : string → exn + option Response.

(** The loop of lines 188-199 over the requested ids. *)
Fixpoint fetch_requested (internal_id : string) (default_response : Response)
    (requested_ids : list string)
    (results : list (string * option Response)) (screen : list string)
  : exn + (list (string * option Response) * list string) :=
  match requested_ids with
  | [] => inr (results, screen)
  | vid :: requested_ids' =>
      if bool_decide (vid = internal_id) then
        fetch_requested internal_id default_response requested_ids'
          (Dict.set vid (Some default_response) results) screen
      else
        match get_response_by_id vid with
        | inl e => inl e
        | inr requested_response =>
            let screen' :=
              if requested_response is None
              then to_screen_once (not_found_message vid) screen
              else screen in
            fetch_requested internal_id default_response requested_ids'
              (Dict.set vid requested_response results) screen'
        end
  end.

Definition _get_responses_for_langs (internal_id : string) (screen : list string)
  : exn + (list (string * option Response) * list string) :=
  match get_response_by_id internal_id with
  | inl e => inl e
  | inr None => inl (ExtractorError (no_video_message internal_id))
  | inr (Some default_response) =>
      let default_meta := get_meta_from_response default_response in
      let versions := versions_of default_meta in
      let lang_table := build_lang_table internal_id versions in
      let requested_ids := keep_table_matches lang_table in
      fetch_requested internal_id default_response requested_ids [] screen
  end.
End responses.

(** ** Merging the extracted versions *)

(** The info dict an extraction returns: its [formats] list and
    [subtitles] map when it has them, and every other member. *)
Record InfoDict : Type := mkInfoDict {
  meta : gmap string Value;
  formats : option (list (gmap string Value));
  subtitles : option (gmap string Value)
}.

Definition formats_value (fs : list (gmap string Value)) : Value :=
  VList ((λ f, VDict (map_to_list f)) <$> fs).

Definition subtitles_value (subs : gmap string Value) : Value :=
  VDict (map_to_list subs).

(** [info.items()], as a map from key to value. *)
Definition items (info : InfoDict) : gmap string Value :=
  let m := meta info in
  let m := match formats info with
           | Some fs => <["formats" := formats_value fs]> m
           | None => m
           end in
  match subtitles info with
  | Some subs => <["subtitles" := subtitles_value subs]> m
  | None => m
  end.

(** [is_attribute_hashable]: the key of an info dict is a string. *)
Definition is_attribute_hashable (attribute : string * Value) : bool :=
  hashable attribute.2.

(** [set(filter(is_attribute_hashable, info.items()))]: a set of pairs
    with pairwise distinct keys, kept as the map it is the graph of. *)
Definition as_set (info : InfoDict) : gmap string Value :=
  filter (λ attribute, is_attribute_hashable attribute) (items info).

(** [attribute not in result_as_set], for a hashable attribute. *)
Definition not_in_set (result_as_set : gmap string Value)
    (attribute : string * Value) : bool :=
  match result_as_set !! attribute.1 with
  | Some v => negb (scalar_eqb attribute.2 v)
  | None => true
  end.

(** [dict(version_as_set - result_as_set)] *)
Definition set_difference (version_as_set result_as_set : gmap string Value)
  : gmap string Value :=
  filter (λ attribute, not_in_set result_as_set attribute) version_as_set.

(** [d.update(other)]: the entries of [other] win. *)
Definition update (d other : gmap string Value) : gmap string Value := other ∪ d.

(** Lines 273-277: the main response and the remaining ones. *)
Definition choose_primary (internal_id : string)
    (responses : list (string * option Response))
  : exn + ((string * option Response) * list (string * option Response)) :=
  let version_response := mjoin (Dict.get internal_id responses) in
  let responses := Dict.remove internal_id responses in
  match version_response with
  | Some r => inr ((internal_id, Some r), responses)
  | None =>
      match Dict.popitem responses with
      | Some (kv, responses') => inr (kv, responses')
      | None => inl KeyError
      end
  end.

(** The main result after [result.setdefault('formats', [])] and
    [result.setdefault('subtitles', {})]. *)
Definition setdefaults (result : InfoDict) : InfoDict :=
  {| meta := meta result;
     formats := Some (default [] (formats result));
     subtitles := Some (default ∅ (subtitles result)) |}.

(** The subtitle map after the subtitles of [versions] have been written
    over [base], one version after the other (line 305). *)
Definition merged_subtitles (versions : list InfoDict) (base : gmap string Value)
  : gmap string Value :=
  fold_left (λ s version, update s (default ∅ (subtitles version))) versions base.

Section merge.
Variable extract_version : string → string → option Response → exn + InfoDict.

(** The formats of one further version, with its differences to the
    main result added to each of them (lines 293-301). *)
Definition stamped_formats (result_as_set : gmap string Value) (version : InfoDict)
  : list (gmap string Value) :=
  let version_formats := default [] (formats version) in
  let version_as_set := as_set version in
  let version_differences := set_difference version_as_set result_as_set in
  (λ version_format, update version_format version_differences) <$> version_formats.

(** The loop of lines 292-305. *)
Fixpoint merge_versions (lang : string) (result_as_set : gmap string Value)
    (responses : list (string * option Response))
    (result_formats : list (gmap string Value)) (result_subtitles : gmap string Value)
  : exn + (list (gmap string Value) * gmap string Value) :=
  match responses with
  | [] => inr (result_formats, result_subtitles)
  | (version_id, version_response) :: responses' =>
      match extract_version lang version_id version_response with
      | inl e => inl e
      | inr version =>
          let version_formats := stamped_formats result_as_set version in
          let version_subtitles := default ∅ (subtitles version) in
          merge_versions lang result_as_set responses'
            (result_formats ++ version_formats)
            (update result_subtitles version_subtitles)
      end
  end.

(** Lines 272-308: the merge of several responses. *)
Definition merge_results (lang internal_id : string)
    (responses : list (string * option Response)) : exn + InfoDict :=
  match choose_primary internal_id responses with
  | inl e => inl e
  | inr ((version_id, version_response), responses) =>
      match extract_version lang version_id version_response with
      | inl e => inl e
      | inr result =>
          let result_formats := default [] (formats result) in
          let result_subtitles := default ∅ (subtitles result) in
          let result := setdefaults result in
          let result_as_set := as_set result in
          match merge_versions lang result_as_set responses
                  result_formats result_subtitles with
          | inl e => inl e
          | inr (result_formats, result_subtitles) =>
              inr {| meta := meta result;
                     formats := Some result_formats;
                     subtitles := Some result_subtitles |}
          end
      end
  end.

Definition _extract_versions_and_merge_results (lang internal_id : string)
    (responses : list (string * option Response)) : exn + InfoDict :=
  match responses with
  | [(target_id, target_response)] =>
      extract_version lang target_id target_response
  | _ => merge_results lang internal_id responses
  end.
End merge.

(** ** The entry point of the single-video extractor *)

Definition none_found_message : string :=
  "None of the requested audio languages were found".

Section real_extract.
Variable keep_table_matches : list VersionRow → list string.
Variable get_response_by_id : string → exn + option Response.
(** The body of [_extract_version] on an object of the API. *)
Variable extract_object : string → string → Response → exn + InfoDict.

(** [_extract_version] starts with [response.get('type')], which raises
    [AttributeError] on [None]. *)
Definition _extract_version (lang internal_id : string) (response : option Response)
  : exn + InfoDict :=
  match response with
  | None => inl AttributeError
  | Some r => extract_object lang internal_id r
  end.

(** [_real_extract] (lines 444-465): the result it returns or the
    exception it raises.  What is printed on the way, by the fetch of
    the responses and by the extraction of each version, is not part of
    this value. *)
Definition _real_extract (lang internal_id : string) (screen : list string)
  : exn + InfoDict :=
  match _get_responses_for_langs keep_table_matches get_response_by_id
          internal_id screen with
  | inl e => inl e
  | inr (responses, _) =>
      match responses with
      | [] => inl (ExtractorError none_found_message)
      | _ =>
          _extract_versions_and_merge_results _extract_version
            lang internal_id responses
      end
  end.
End real_extract.

(** ** Format extraction *)

(** A stream descriptor of the manifest. *)
Record Stream : Type := mkStream {
  hardsub_locale : option string;
  url : option string
}.

(** The stream response: the [(stream_type, streams)] items found under
    [streams] and under [data[0]], and the [audio_locale] found at the top
    level and under [meta]. *)
Record StreamResponse : Type := mkStreamResponse {
  streams : list (string * list Stream);
  data0 : list (string * list Stream);
  top_audio_locale : option string;
  meta_audio_locale : option string
}.

(** What [_extract_formats] calls on the extractor object, imports from
    [yt_dlp.utils] and uses of the built-in functions, for the
    [display_id] of the call; none of it is defined in this file. *)
Record Extractor : Type := mkExtractor {
  _configuration_arg : string → list string;
  join_nonempty : list string → string;
  format_field : Stream → string → string → string;
  _extract_m3u8_formats : string → string → list (gmap string Value);
  _m3u8_meta_format : string → string → gmap string Value;
  _extract_mpd_formats : string → string → list (gmap string Value);
  (** [repr(s)] of a string *)
  repr : string → string;
  (** the text under which [report_warning(msg, display_id,
      only_once=True)] registers the warning [msg]: it holds the name of
      the extractor and the [display_id] *)
  report_warning : string → string
}.

(** The position of the first occurrence of [qid] in [quality_ids]. *)
Fixpoint index_of (qid : string) (quality_ids : list string) : option nat :=
  match quality_ids with
  | [] => None
  | q :: quality_ids' =>
      if bool_decide (q = qid) then Some 0%nat
      else S <$> index_of qid quality_ids'
  end.

(** Modelled from the spec: [qualities] of [yt_dlp.utils], which is not
    part of this file; the rank of an id is its position in the list, and
    an id that is not in the list gets the lowest rank, [-1]. *)
Definition qualities (quality_ids : list string) (qid : string) : Z :=
  match index_of qid quality_ids with
  | Some i => Z.of_nat i
  | None => (-1)%Z
  end.

(** An entry of [available_formats]:
    [(stream_type, format_id, hardsub_lang, stream_url)]. *)
Definition Entry : Type := string * string * string * string.

Definition entry_stream_type (e : Entry) : string := e.1.1.1.
Definition entry_format_id (e : Entry) : string := e.1.1.2.
Definition entry_hardsub_lang (e : Entry) : string := e.1.2.
Definition entry_url (e : Entry) : string := e.2.

(** [v['url']] is present and not empty. *)
Definition has_url (v : Stream) : bool :=
  match url v with
  | Some u => PyStr.truthy u
  | None => false
  end.

(** The double quote, as a string. *)
Definition double_quote : string := String "034"%char EmptyString.

Definition hardsub_hint : string :=
  "To get all formats of a hardsub language, use "
  ++ double_quote
  ++ "--extractor-args crunchyrollbeta:hardsub=<language_code or all>"
  ++ double_quote ++ ". "
  ++ "See https://github.com/yt-dlp/yt-dlp#crunchyrollbeta-crunchyroll for more info".

(** The warning of line 241 as [report_warning] registers it for the
    video: the message is [f'Encountered unknown stream_type:
    {stream_type!r}']. *)
Definition unknown_stream_type_message (self : Extractor) (stream_type : string)
  : string :=
  report_warning self ("Encountered unknown stream_type: " ++ repr self stream_type).

(** [f.get('acodec') == 'none'] *)
Definition acodec_is_none (f : gmap string Value) : bool :=
  match f !! "acodec" with
  | Some v => scalar_eqb (VStr "none") v
  | None => false
  end.

Section extract_formats.
Variable self : Extractor.

Definition requested_formats : list string :=
  match _configuration_arg self "format" with
  | [] => ["adaptive_hls"]
  | l => l
  end.

(** The tuple of lines 210-212 for one stream. *)
Definition stream_entry (stream_type : string) (stream : Stream) : Entry :=
  let hardsub_lang := default "" (hardsub_locale stream) in
  let format_id :=
    join_nonempty self
      [stream_type; format_field self stream "hardsub_locale" "hardsub-%s"] in
  (stream_type, format_id, hardsub_lang, default "" (url stream)).

(** The body of the inner loop, lines 210-212. *)
Definition add_stream (stream_type : string)
    (available_formats : list (string * Entry)) (stream : Stream)
  : list (string * Entry) :=
  let hardsub_lang := default "" (hardsub_locale stream) in
  Dict.set hardsub_lang (stream_entry stream_type stream) available_formats.

(** The body of the outer loop, lines 207-212. *)
Definition add_streams (available_formats : list (string * Entry))
    (item : string * list Stream) : list (string * Entry) :=
  let '(stream_type, streams) := item in
  if bool_decide (stream_type ∈ requested_formats) then
    fold_left (add_stream stream_type) (filter (λ v, has_url v) streams)
      available_formats
  else available_formats.

Definition available_formats (stream_response : StreamResponse)
  : list (string * Entry) :=
  fold_left add_streams (streams stream_response ++ data0 stream_response) [].

Definition requested_hardsubs : list string :=
  (λ val, if bool_decide (val = "none") then "" else val) <$>
    (match _configuration_arg self "hardsub" with
     | [] => ["none"]
     | l => l
     end).

(** The test of line 215. *)
Definition restricts_expansion (available : list (string * Entry)) : bool :=
  bool_decide ("" ∈ Dict.keys available)
  && negb (bool_decide ("all" ∈ requested_hardsubs)).

Definition full_format_langs (available : list (string * Entry)) : list string :=
  if restricts_expansion available then requested_hardsubs
  else PyStr.lower <$> Dict.keys available.

(** [traverse_obj(stream_response, ((None, 'meta'), 'audio_locale'),
    get_all=False)]: the first one present, or [None]. *)
Definition audio_locale_of (stream_response : StreamResponse) : Value :=
  match top_audio_locale stream_response with
  | Some l => VStr l
  | None =>
      match meta_audio_locale stream_response with
      | Some l => VStr l
      | None => VNone
      end
  end.

Definition hardsub_preference : string → Z := qualities (reverse requested_hardsubs).

(** Lines 229-242: the renditions of one entry, or [None] for a stream
    type that is neither HLS nor DASH. *)
Definition adaptive_formats (full_format_langs : list string) (e : Entry)
  : option (list (gmap string Value)) :=
  let '(stream_type, format_id, hardsub_lang, stream_url) := e in
  if PyStr.endswith stream_type "hls" then
    if bool_decide (PyStr.lower hardsub_lang ∈ full_format_langs) then
      Some (_extract_m3u8_formats self stream_url format_id)
    else
      Some [_m3u8_meta_format self stream_url format_id]
  else if PyStr.endswith stream_type "dash" then
    Some (_extract_mpd_formats self stream_url format_id)
  else None.

(** Lines 244-246: the language and quality of one rendition. *)
Definition tag_format (audio_locale : Value) (hardsub_lang : string)
    (f : gmap string Value) : gmap string Value :=
  let f :=
    if acodec_is_none f then f
    else <["language" := audio_locale]> f in
  <["quality" := VInt (hardsub_preference (PyStr.lower hardsub_lang))]> f.

(** The body of the loop of lines 228-247 on the formats and the
    messages collected so far. *)
Definition extract_entry (full_format_langs : list string) (audio_locale : Value)
    (state : list (gmap string Value) * list string) (e : Entry)
  : list (gmap string Value) * list string :=
  let '(formats, screen) := state in
  match adaptive_formats full_format_langs e with
  | Some adaptive =>
      (formats ++ (tag_format audio_locale (entry_hardsub_lang e) <$> adaptive),
       screen)
  | None =>
      (formats,
       to_screen_once (unknown_stream_type_message self (entry_stream_type e)) screen)
  end.

(** The formats one entry adds to the result. *)
Definition entry_formats (full_format_langs : list string) (audio_locale : Value)
    (e : Entry) : list (gmap string Value) :=
  match adaptive_formats full_format_langs e with
  | Some adaptive => tag_format audio_locale (entry_hardsub_lang e) <$> adaptive
  | None => []
  end.

(** The streams the two loops of lines 205-212 reach, in their order. *)
Definition kept_streams (stream_response : StreamResponse)
  : list (string * Stream) :=
  (streams stream_response ++ data0 stream_response) ≫=
    λ item : string * list Stream,
      if bool_decide (item.1 ∈ requested_formats)
      then (λ v, (item.1, v)) <$> filter (λ v, has_url v) item.2
      else [].

Definition _extract_formats (stream_response : StreamResponse)
    (screen : list string) : list (gmap string Value) * list string :=
  let available := available_formats stream_response in
  let screen :=
    if restricts_expansion available then to_screen_once hardsub_hint screen
    else screen in
  let full := full_format_langs available in
  let audio_locale := audio_locale_of stream_response in
  fold_left (extract_entry full audio_locale) (Dict.values available) ([], screen).
End extract_formats.

(** ** The rules of format extraction as the specification words them *)

Section specified.
Variable self : Extractor.

(** The available formats keyed, as the specification says, by the pair
    of the case-folded hardsub language and the stream type. *)
Definition available_formats_by_pair (stream_response : StreamResponse)
  : list ((string * string) * Entry) :=
  fold_left
    (λ available (sv : string * Stream),
       Dict.set (PyStr.casefold (default "" (hardsub_locale sv.2)), sv.1)
         (stream_entry self sv.1 sv.2) available)
    (kept_streams self stream_response) [].

(** The renditions of an entry by the expansion rule of the
    specification, which does not look at the stream type. *)
Definition specified_formats (available : list (string * Entry)) (e : Entry)
  : list (gmap string Value) :=
  if restricts_expansion self available then
    if bool_decide (PyStr.lower (entry_hardsub_lang e) ∈ requested_hardsubs self)
    then _extract_m3u8_formats self (entry_url e) (entry_format_id e)
    else [_m3u8_meta_format self (entry_url e) (entry_format_id e)]
  else _extract_m3u8_formats self (entry_url e) (entry_format_id e).
End specified.

(** ** A selector of exact language codes *)

(** Modelled from the spec: [LangSelector.keep_table_matches] of
    [yt_dlp.utils], which is not part of this file, for a selector whose
    priority groups are single exact codes (the default token being the
    code [_DEFAULT_LANG]): the ids of the rows each group matches, in
    group order, without repeats, first occurrence first. *)
Definition keep_codes (codes : list string) (table : list VersionRow) : list string :=
  remove_dups
    (codes ≫= λ code,
       omap (λ row : VersionRow,
               if bool_decide (row.2 = Some code) then row.1 else None) table).

(** ** Concrete inputs *)

Module Examples.

(** An episode [A] with a sibling version [B] in another language. *)
Definition episode_A : Response :=
  {| object_type := Some "episode";
     members :=
       [("episode_metadata",
         {| versions :=
              Some [ {| guid := Some "A"; audio_locales := []; audio_locale := Some "ja-JP" |};
                     {| guid := Some "B"; audio_locales := []; audio_locale := Some "en-US" |} ] |})];
     fields :=
       {[ "id" := VStr "A"; "title" := VStr "Title"; "season_number" := VInt 1;
          "thumbnails" := VList [VStr "a.jpg"] ]} |}.

Definition episode_B : Response :=
  {| object_type := Some "episode";
     members := [("episode_metadata", {| versions := None |})];
     fields :=
       {[ "id" := VStr "B"; "title" := VStr "Titel"; "season_number" := VInt 1;
          "thumbnails" := VList [VStr "b.jpg"] ]} |}.

(** The API knows [A] only: every other id is answered with 404. *)
Definition only_A (requested_id : string) : exn + option Response :=
  if bool_decide (requested_id = "A") then inr (Some episode_A) else inr None.

(** An extraction that copies the members of the object and finds one
    format and one subtitle track named after the id. *)
Definition info_of (internal_id : string) (response : Response) : InfoDict :=
  {| meta := fields response;
     formats := Some [ {[ "format_id" := VStr internal_id ]} ];
     subtitles := Some {[ "en-US" := VStr internal_id ]} |}.

Definition extract_fields (lang internal_id : string) (response : Response)
  : exn + InfoDict :=
  inr (info_of internal_id response).

Definition two_versions : list (string * option Response) :=
  [("B", Some episode_B); ("A", Some episode_A)].

(** An extractor object whose playlists have two renditions each, the
    second one without audio; [format] and [hardsub] are the extractor
    arguments given, [join_nonempty] joins the non-empty values with a
    dash and [format_field] fills the template [hardsub-%s]. *)
Definition extractor (format hardsub : list string) : Extractor :=
  {| _configuration_arg key :=
       if bool_decide (key = "format") then format
       else if bool_decide (key = "hardsub") then hardsub
       else [];
     join_nonempty values := String.concat "-" (filter (λ v, PyStr.truthy v) values);
     format_field stream field template :=
       match hardsub_locale stream with
       | Some locale => ("hardsub-" ++ locale)%string
       | None => ""
       end;
     _extract_m3u8_formats stream_url m3u8_id :=
       [ {[ "format_id" := VStr (m3u8_id ++ "-1")%string; "url" := VStr stream_url ]};
         {[ "format_id" := VStr (m3u8_id ++ "-2")%string; "url" := VStr stream_url;
            "acodec" := VStr "none" ]} ];
     _m3u8_meta_format stream_url m3u8_id :=
       {[ "format_id" := VStr (m3u8_id ++ "-meta")%string; "url" := VStr stream_url ]};
     _extract_mpd_formats stream_url mpd_id :=
       [ {[ "format_id" := VStr (mpd_id ++ "-1")%string; "url" := VStr stream_url ]};
         {[ "format_id" := VStr (mpd_id ++ "-2")%string; "url" := VStr stream_url;
            "acodec" := VStr "none" ]} ];
     repr s := ("'" ++ s ++ "'")%string;
     report_warning msg := ("[crunchyroll] A: " ++ msg)%string |}.

(** HLS streams: untagged, and with German and English hardsubs. *)
Definition hls_manifest : StreamResponse :=
  {| streams :=
       [("adaptive_hls",
         [ {| hardsub_locale := None; url := Some "https://cdn/hls" |};
           {| hardsub_locale := Some "de-DE"; url := Some "https://cdn/hls-de" |};
           {| hardsub_locale := Some "en-US"; url := Some "https://cdn/hls-en" |};
           {| hardsub_locale := Some "fr-FR"; url := None |} ])];
     data0 := [];
     top_audio_locale := None;
     meta_audio_locale := Some "ja-JP" |}.

(** The untagged stream and an English hardsub stream, each as HLS and
    as DASH. *)
Definition hls_dash_manifest : StreamResponse :=
  {| streams :=
       [("adaptive_hls",
         [ {| hardsub_locale := None; url := Some "https://cdn/hls" |};
           {| hardsub_locale := Some "en-US"; url := Some "https://cdn/hls-en" |} ]);
        ("adaptive_dash",
         [ {| hardsub_locale := None; url := Some "https://cdn/dash" |};
           {| hardsub_locale := Some "en-US"; url := Some "https://cdn/dash-en" |} ])];
     data0 := [];
     top_audio_locale := Some "ja-JP";
     meta_audio_locale := None |}.

(** Two hardsub streams whose language differs in case only. *)
Definition mixed_case_manifest : StreamResponse :=
  {| streams :=
       [("adaptive_hls",
         [ {| hardsub_locale := Some "en-US"; url := Some "https://cdn/hls-1" |};
           {| hardsub_locale := Some "en-us"; url := Some "https://cdn/hls-2" |} ])];
     data0 := [];
     top_audio_locale := Some "ja-JP";
     meta_audio_locale := None |}.

(** An English hardsub stream of a stream type that is neither HLS nor
    DASH by its name. *)
Definition other_type_manifest : StreamResponse :=
  {| streams :=
       [("multitrack_adaptive_hls_v2",
         [ {| hardsub_locale := Some "en-US"; url := Some "https://cdn/v2-en" |} ])];
     data0 := [];
     top_audio_locale := Some "ja-JP";
     meta_audio_locale := None |}.

End Examples.

(** ** Outcomes *)


(** What the loop of [_get_responses_for_langs] stores for an id: the
    default response for the requested id, and what the fetch returns for
    any other id. *)
Definition stored_response (get_response_by_id : string → exn + option Response)
    (internal_id : string) (default_response : Response)
    (vid : string) (x : option Response) : Prop :=
  (vid = internal_id ∧ x = Some default_response)
  ∨ (vid ≠ internal_id ∧ get_response_by_id vid = inr x).

(** ** Further concrete inputs *)

Module MoreExamples.

(** The API knows [A]; the request for any other id fails for good. *)
Definition A_then_failure (requested_id : string) : exn + option Response :=
  if bool_decide (requested_id = "A") then inr (Some Examples.episode_A)
  else inl (ExtractorError "HTTP Error 500").

(** The API knows [A] and [B]. *)
Definition A_and_B (requested_id : string) : exn + option Response :=
  if bool_decide (requested_id = "A") then inr (Some Examples.episode_A)
  else if bool_decide (requested_id = "B") then inr (Some Examples.episode_B)
  else inr None.

(** An episode [A] with three sibling versions. *)
Definition episode_A4 : Response :=
  {| object_type := Some "episode";
     members :=
       [("episode_metadata",
         {| versions :=
              Some [ {| guid := Some "A"; audio_locales := []; audio_locale := Some "ja-JP" |};
                     {| guid := Some "B"; audio_locales := []; audio_locale := Some "en-US" |};
                     {| guid := Some "C"; audio_locales := []; audio_locale := Some "de-DE" |};
                     {| guid := Some "D"; audio_locales := []; audio_locale := Some "fr-FR" |} ] |})];
     fields := {[ "id" := VStr "A"; "title" := VStr "Title" ]} |}.

Definition episode_C : Response :=
  {| object_type := Some "episode";
     members := [("episode_metadata", {| versions := None |})];
     fields := {[ "id" := VStr "C"; "title" := VStr "Titel" ]} |}.

(** The API knows [A], [B] and [C]: the version [D] is answered with
    404. *)
Definition without_D (requested_id : string) : exn + option Response :=
  if bool_decide (requested_id = "A") then inr (Some episode_A4)
  else if bool_decide (requested_id = "B") then inr (Some Examples.episode_B)
  else if bool_decide (requested_id = "C") then inr (Some episode_C)
  else inr None.

(** Subtitle descriptors, as [(url, format)] pairs, and their tracks. *)
Definition track (subtitle : string * string) : Value :=
  VDict [("url", VStr subtitle.1); ("ext", VStr subtitle.2)].

Definition top_subtitles : list (string * (string * string)) :=
  [("en-US", ("https://top/en.ass", "ass")); ("de-DE", ("https://top/de.ass", "ass"))].

Definition meta_subtitles : list (string * (string * string)) :=
  [("en-US", ("https://meta/en.vtt", "vtt")); ("fr-FR", ("https://meta/fr.vtt", "vtt"))].

End MoreExamples.

(** ** Subtitles *)

Section extract_subtitles.
Context {Subtitle : Type}.
(** [traverse_obj(subtitle, {'url': 'url', 'ext': 'format'})], the track
    made of one subtitle descriptor. *)
Variable track : Subtitle → Value.

(** The body of the loop, line 255. *)
Definition add_track (subtitles : gmap string Value) (item : string * Subtitle)
  : gmap string Value :=
  <[item.1 := VList [track item.2]]> subtitles.

(** [_extract_subtitles] on the [(locale, subtitle)] items found under
    [subtitles] and under [meta.subtitles], in this order. *)
Definition _extract_subtitles (top meta : list (string * Subtitle))
  : gmap string Value :=
  fold_left add_track (top ++ meta) ∅.
End extract_subtitles.

(** ** The session and the API calls *)

(** The exceptions of the API layer: an [ExtractorError] whose cause is an
    [HTTPError] with the given code, an [AssertionError], a [TypeError],
    and any other exception. *)
Inductive api_exn : Type :=
| HTTPError (code : Z)
| AssertionError
| TypeError
| Raised (e : exn).

(** The requests a call makes, in the order it makes them. *)
Inductive Request : Type :=
| GetPage (lang : string)
| PostToken (basic_auth grant_type : string)
| GetJson (url : string) (authorization : option string) (query : gmap string string).

(** [_BASE_URL] *)
Definition _BASE_URL : string := "https://www.crunchyroll.com".

(** [s.startswith(prefix)] *)
Definition startswith (s prefix : string) : bool := String.prefix prefix s.

(** The path [_call_api] asks for (lines 115-116). *)
Definition api_prefix (api_endpoint : string) : string :=
  "/content/v2/" ++ api_endpoint ++ "/".

Definition api_path (api_endpoint path : string) : string :=
  if startswith path (api_prefix api_endpoint) then path
  else api_prefix api_endpoint ++ path.

(** The endpoint [_call_base_api] asks for (lines 107-108). *)
Definition base_endpoint (endpoint : string) : string :=
  if startswith endpoint "/" then endpoint else "/" ++ endpoint.

Definition unexpected_response_message (note : string) : string :=
  "Unexpected response when downloading " ++ note ++ " JSON".

(** Whether a request asks the API for JSON. *)
Definition is_json_request (r : Request) : bool :=
  match r with
  | GetJson _ _ _ => true
  | _ => false
  end.

Section session.
Context {Page Json Time Token : Type}.

(** The class attributes [_QUERY], [_BASIC_AUTH], [_AUTH_HEADERS] (its
    [Authorization] entry) and [_AUTH_REFRESH] (unset at first), and the
    requests made so far. *)
Record Session : Type := mkSession {
  _QUERY : gmap string (option (gmap string string));
  _BASIC_AUTH : option string;
  _AUTH_HEADERS : option string;
  _AUTH_REFRESH : option Time;
  requests : list Request
}.

(** What the calls read from outside at the time of a call: the login
    cookie, the downloads, the helpers of [yt_dlp.utils] and of the
    standard library, and the clock. *)
Record World : Type := mkWorld {
  is_logged_in : bool;
  (** [_download_webpage] of the main page of a language *)
  _download_webpage : string → api_exn + Page;
  (** [_search_json] of the initial state, and
      [traverse_obj(initial_state, {'locale': ...}) or None] *)
  initial_state_query : Page → api_exn + option (gmap string string);
  (** [_search_json] of the app config, and the client id
      [app_config['cxApiParams'][...]] for a logged-in or an anonymous
      user *)
  cx_api_param : Page → bool → api_exn + string;
  (** [base64.b64encode(s.encode()).decode()] *)
  b64encode : string → string;
  (** [_download_json] of the token, for the basic authorization and the
      grant type *)
  _download_token : string → string → api_exn + Token;
  (** [auth_response['token_type']], [auth_response['access_token']] *)
  token_type : Token → option string;
  access_token : Token → option string;
  (** [time_seconds(seconds=expires_in - 10)] at the time of the call *)
  refresh_time : Token → Time;
  (** [refresh > time_seconds()] at the time of the call *)
  still_valid : Time → bool;
  (** [_download_json] of an API URL with the authorization header and
      the query; [None] is a falsy reply *)
  _download_json : string → option string → gmap string string → api_exn + option Json
}.

Definition log (r : Request) (s : Session) : Session :=
  {| _QUERY := _QUERY s; _BASIC_AUTH := _BASIC_AUTH s;
     _AUTH_HEADERS := _AUTH_HEADERS s; _AUTH_REFRESH := _AUTH_REFRESH s;
     requests := requests s ++ [r] |}.

Definition set_query (lang : string) (q : option (gmap string string))
    (s : Session) : Session :=
  {| _QUERY := <[lang := q]> (_QUERY s); _BASIC_AUTH := _BASIC_AUTH s;
     _AUTH_HEADERS := _AUTH_HEADERS s; _AUTH_REFRESH := _AUTH_REFRESH s;
     requests := requests s |}.

Definition set_basic_auth (basic_auth : string) (s : Session) : Session :=
  {| _QUERY := _QUERY s; _BASIC_AUTH := Some basic_auth;
     _AUTH_HEADERS := _AUTH_HEADERS s; _AUTH_REFRESH := _AUTH_REFRESH s;
     requests := requests s |}.

Definition set_auth (authorization : string) (refresh : Time)
    (s : Session) : Session :=
  {| _QUERY := _QUERY s; _BASIC_AUTH := _BASIC_AUTH s;
     _AUTH_HEADERS := Some authorization; _AUTH_REFRESH := Some refresh;
     requests := requests s |}.

(** The truthy [_BASIC_AUTH], if any. *)
Definition basic_auth_of (s : Session) : option string :=
  match _BASIC_AUTH s with
  | Some a => if PyStr.truthy a then Some a else None
  | None => None
  end.

Variable w : World.

(** [_update_query] (lines 70-88); the session is kept as the exception
    leaves it. *)
Definition _update_query (lang : string) (s : Session)
  : (api_exn + unit) * Session :=
  if bool_decide (is_Some (_QUERY s !! lang)) then (inr (), s)
  else
    let s := log (GetPage lang) s in
    match _download_webpage w lang with
    | inl e => (inl e, s)
    | inr webpage =>
        match initial_state_query w webpage with
        | inl e => (inl e, s)
        | inr q =>
            let s := set_query lang q s in
            match basic_auth_of s with
            | Some _ => (inr (), s)
            | None =>
                match cx_api_param w webpage (is_logged_in w) with
                | inl e => (inl e, s)
                | inr param =>
                    (inr (),
                     set_basic_auth ("Basic " ++ b64encode w (param ++ ":")) s)
                end
            end
        end
    end.

(** The test of line 91. *)
Definition token_is_valid (s : Session) : api_exn + bool :=
  match _AUTH_HEADERS s with
  | None => inr false
  | Some _ =>
      match _AUTH_REFRESH s with
      | Some refresh => inr (still_valid w refresh)
      | None => inl (Raised AttributeError)
      end
  end.

(** The grant type of line 95. *)
Definition grant_type : string :=
  if is_logged_in w then "etp_rt_cookie" else "client_id".

(** [_update_auth] (lines 90-101). *)
Definition _update_auth (s : Session) : (api_exn + unit) * Session :=
  match token_is_valid s with
  | inl e => (inl e, s)
  | inr true => (inr (), s)
  | inr false =>
      match basic_auth_of s with
      | None => (inl AssertionError, s)
      | Some basic_auth =>
          let s := log (PostToken basic_auth grant_type) s in
          match _download_token w basic_auth grant_type with
          | inl e => (inl e, s)
          | inr auth_response =>
              match token_type w auth_response, access_token w auth_response with
              | Some type, Some token =>
                  (inr (),
                   set_auth (type ++ " " ++ token) (refresh_time w auth_response) s)
              | _, _ => (inl (Raised KeyError), s)
              end
          end
      end
  end.

(** [_call_base_api] (lines 103-112). *)
Definition _call_base_api (endpoint lang : string) (query : gmap string string)
    (s : Session) : (api_exn + option Json) * Session :=
  match _update_query lang s with
  | (inl e, s) => (inl e, s)
  | (inr _, s) =>
      match _update_auth s with
      | (inl e, s) => (inl e, s)
      | (inr _, s) =>
          let endpoint := base_endpoint endpoint in
          match _QUERY s !! lang with
          | None => (inl (Raised KeyError), s)
          | Some None => (inl TypeError, s)
          | Some (Some cached) =>
              let url := (_BASE_URL ++ endpoint)%string in
              let query := query ∪ cached in
              let s := log (GetJson url (_AUTH_HEADERS s) query) s in
              (_download_json w url (_AUTH_HEADERS s) query, s)
          end
      end
  end.

(** [_call_api] (lines 114-128) of a class whose [_API_ENDPOINT] is
    [api_endpoint]; [inr None] is the [None] it returns. *)
Definition _call_api (api_endpoint path lang note : string)
    (query : gmap string string) (s : Session)
  : (api_exn + option Json) * Session :=
  let path := api_path api_endpoint path in
  match _call_base_api path lang query s with
  | (inl (HTTPError code), s) =>
      if bool_decide (code = 404%Z) then (inr None, s)
      else (inl (HTTPError code), s)
  | (inl e, s) => (inl e, s)
  | (inr None, s) =>
      (inl (Raised (ExtractorError (unexpected_response_message note))), s)
  | (inr (Some result), s) => (inr (Some result), s)
  end.
End session.

(** ** Logging in *)

(** The requests of [_perform_login]. *)
Inductive LoginRequest {SessionId : Type} : Type :=
| GetSessionId
| PostLogin (account password : string) (session_id : SessionId).
Arguments LoginRequest : clear implicits.

Definition no_session_id_message : string := "Could not get session id".

Definition login_failed_message (message : string) : string :=
  "Login failed. Server message: " ++ message.

Definition no_cookie_message : string :=
  "Login succeeded but did not set etp_rt cookie".

Section perform_login.
Context {Json SessionId : Type}.

(** What [_perform_login] reads from outside: the [etp_rt] cookie when
    it starts and after the login request, the two downloads, and the
    members of their replies ([None] where the subscript raises). *)
Record LoginSite : Type := mkLoginSite {
  logged_in_at_start : bool;
  get_upsell_data : api_exn + Json;
  login : string → string → SessionId → api_exn + Json;
  logged_in_after_login : bool;
  (** [response['code'] == 'ok'] *)
  code_is_ok : Json → option bool;
  (** [upsell_response['data']['session_id']] *)
  session_id_of : Json → option SessionId;
  (** [login_response['message']], formatted by [%s] *)
  message_of : Json → option string
}.

Variable site : LoginSite.

(** [_perform_login] (lines 41-68), with the requests it makes. *)
Definition _perform_login (username password : string)
  : (api_exn + unit) * list (LoginRequest SessionId) :=
  if logged_in_at_start site then (inr (), [])
  else
    let requests := [GetSessionId] in
    match get_upsell_data site with
    | inl e => (inl e, requests)
    | inr upsell_response =>
        match code_is_ok site upsell_response with
        | None => (inl (Raised KeyError), requests)
        | Some false =>
            (inl (Raised (ExtractorError no_session_id_message)), requests)
        | Some true =>
            match session_id_of site upsell_response with
            | None => (inl (Raised KeyError), requests)
            | Some session_id =>
                let requests :=
                  requests ++ [PostLogin username password session_id] in
                match login site username password session_id with
                | inl e => (inl e, requests)
                | inr login_response =>
                    match code_is_ok site login_response with
                    | None => (inl (Raised KeyError), requests)
                    | Some false =>
                        match message_of site login_response with
                        | None => (inl (Raised KeyError), requests)
                        | Some message =>
                            (inl (Raised (ExtractorError (login_failed_message message))),
                             requests)
                        end
                    | Some true =>
                        if logged_in_after_login site then (inr (), requests)
                        else
                          (inl (Raised (ExtractorError no_cookie_message)), requests)
                    end
                end
            end
        end
    end.
End perform_login.

(** ** The signed CMS calls *)

(** The path [_call_cms_api_signed] asks for (lines 326-327). *)
Definition cms_path (bucket path : string) : string :=
  if startswith path "/cms/v2" then path else "/cms/v2" ++ bucket ++ "/" ++ path.

Section cms.
Context {Page Json Time Token Policy : Type}.

(** The class attributes [_CMS_EXPIRY], [_CMS_QUERY] and [_CMS_BUCKET];
    the last two are unset at first. *)
Record Cms : Type := mkCms {
  _CMS_EXPIRY : option Time;
  _CMS_QUERY : option (gmap string string);
  _CMS_BUCKET : option string
}.

(** What the signed calls read from outside besides the base API. *)
Record CmsWorld : Type := mkCmsWorld {
  api : World (Page := Page) (Json := Json) (Time := Time) (Token := Token);
  (** the [cms_web] member of the reply of [index/v2] *)
  cms_web : option Json → api_exn + Policy;
  (** the query made of [response['policy']], [response['signature']]
      and [response['key_pair_id']]; [None] where a subscript raises *)
  signature_query : Policy → option (gmap string string);
  (** [response['bucket']] *)
  bucket_of : Policy → option string;
  (** [parse_iso8601(response['expires']) - 10] *)
  expiry_of : Policy → api_exn + Time;
  (** [_CMS_EXPIRY] is truthy and [_CMS_EXPIRY > time_seconds()] at the
      time of the call *)
  policy_is_fresh : Time → bool
}.

Definition set_cms_query (query : gmap string string) (c : Cms) : Cms :=
  {| _CMS_EXPIRY := _CMS_EXPIRY c; _CMS_QUERY := Some query;
     _CMS_BUCKET := _CMS_BUCKET c |}.

Definition set_cms_bucket (bucket : string) (c : Cms) : Cms :=
  {| _CMS_EXPIRY := _CMS_EXPIRY c; _CMS_QUERY := _CMS_QUERY c;
     _CMS_BUCKET := Some bucket |}.

Definition set_cms_expiry (expiry : Time) (c : Cms) : Cms :=
  {| _CMS_EXPIRY := Some expiry; _CMS_QUERY := _CMS_QUERY c;
     _CMS_BUCKET := _CMS_BUCKET c |}.

Variable w : CmsWorld.

(** The negation of the test of line 316. *)
Definition policy_is_valid (c : Cms) : bool :=
  match _CMS_EXPIRY c with
  | Some expiry => policy_is_fresh w expiry
  | None => false
  end.

(** Lines 317-324: the signed policy is asked for and stored. *)
Definition retrieve_signed_policy (lang : string) (c : Cms) (s : Session)
  : (api_exn + unit) * (Cms * Session) :=
  match _call_base_api (api w) "index/v2" lang ∅ s with
  | (inl e, s) => (inl e, (c, s))
  | (inr reply, s) =>
      match cms_web w reply with
      | inl e => (inl e, (c, s))
      | inr response =>
          match signature_query w response with
          | None => (inl (Raised KeyError), (c, s))
          | Some query =>
              let c := set_cms_query query c in
              match bucket_of w response with
              | None => (inl (Raised KeyError), (c, s))
              | Some bucket =>
                  let c := set_cms_bucket bucket c in
                  match expiry_of w response with
                  | inl e => (inl e, (c, s))
                  | inr expiry => (inr (), (set_cms_expiry expiry c, s))
                  end
              end
          end
      end
  end.

(** Lines 316-324. *)
Definition update_signed_policy (lang : string) (c : Cms) (s : Session)
  : (api_exn + unit) * (Cms * Session) :=
  if policy_is_valid c then (inr (), (c, s))
  else retrieve_signed_policy lang c s.

(** [_call_cms_api_signed] (lines 315-330); reading [_CMS_BUCKET] or
    [_CMS_QUERY] while it is unset raises [AttributeError]. *)
Definition _call_cms_api_signed (path lang : string) (c : Cms) (s : Session)
  : (api_exn + option Json) * (Cms * Session) :=
  match update_signed_policy lang c s with
  | (inl e, cs) => (inl e, cs)
  | (inr _, (c, s)) =>
      let path :=
        if startswith path "/cms/v2" then inr path
        else match _CMS_BUCKET c with
             | Some bucket => inr ("/cms/v2" ++ bucket ++ "/" ++ path)%string
             | None => inl (Raised AttributeError)
             end in
      match path with
      | inl e => (inl e, (c, s))
      | inr path =>
          match _CMS_QUERY c with
          | None => (inl (Raised AttributeError), (c, s))
          | Some query =>
              let r := _call_base_api (api w) path lang query s in
              (r.1, (c, r.2))
          end
      end
  end.

(** The signed policy is complete once its expiry is stored. *)
Definition cms_ready (c : Cms) : Prop :=
  is_Some (_CMS_EXPIRY c) → is_Some (_CMS_QUERY c) ∧ is_Some (_CMS_BUCKET c).
End cms.

(** The CMS attributes of a fresh process. *)
Definition initial_cms {Time : Type} : Cms (Time := Time) :=
  {| _CMS_EXPIRY := None; _CMS_QUERY := None; _CMS_BUCKET := None |}.

(** The session of a fresh process. *)
Definition initial_session {Time : Type} : Session (Time := Time) :=
  {| _QUERY := ∅; _BASIC_AUTH := None; _AUTH_HEADERS := None;
     _AUTH_REFRESH := None; requests := [] |}.

Module SessionExamples.

(** A site that answers every request, seen at the time [now] (in
    seconds): pages are named after their language, a token is the
    number of seconds it lasts. *)
Definition site (now : Z)
  : World (Page := string) (Json := Value) (Time := Z) (Token := Z) :=
  {| is_logged_in := false;
     _download_webpage lang := inr lang;
     initial_state_query page := inr (Some {[ "locale" := "en-US" ]});
     cx_api_param page logged_in := inr (if logged_in then "account" else "anon");
     b64encode s := s;
     _download_token basic_auth grant_type := inr 300%Z;
     token_type token := Some "Bearer";
     access_token token := Some "secret";
     refresh_time token := (now + token - 10)%Z;
     still_valid refresh := bool_decide (now < refresh)%Z;
     _download_json url authorization query := inr (Some (VStr url)) |}.

(** The same site when the main page holds no locale. *)
Definition site_without_locale (now : Z)
  : World (Page := string) (Json := Value) (Time := Z) (Token := Z) :=
  {| is_logged_in := false;
     _download_webpage lang := inr lang;
     initial_state_query page := inr None;
     cx_api_param page logged_in := inr (if logged_in then "account" else "anon");
     b64encode s := s;
     _download_token basic_auth grant_type := inr 300%Z;
     token_type token := Some "Bearer";
     access_token token := Some "secret";
     refresh_time token := (now + token - 10)%Z;
     still_valid refresh := bool_decide (now < refresh)%Z;
     _download_json url authorization query := inr (Some (VStr url)) |}.

(** The same site when the main page holds no app config. *)
Definition site_without_config (now : Z)
  : World (Page := string) (Json := Value) (Time := Z) (Token := Z) :=
  {| is_logged_in := false;
     _download_webpage lang := inr lang;
     initial_state_query page := inr (Some {[ "locale" := "en-US" ]});
     cx_api_param page logged_in :=
       inl (Raised (ExtractorError "Unable to extract app config"));
     b64encode s := s;
     _download_token basic_auth grant_type := inr 300%Z;
     token_type token := Some "Bearer";
     access_token token := Some "secret";
     refresh_time token := (now + token - 10)%Z;
     still_valid refresh := bool_decide (now < refresh)%Z;
     _download_json url authorization query := inr (Some (VStr url)) |}.

(** A site whose every request ends in the HTTP error [code]. *)
Definition failing_site (code : Z)
  : World (Page := string) (Json := Value) (Time := Z) (Token := Z) :=
  {| is_logged_in := false;
     _download_webpage lang := inl (HTTPError code);
     initial_state_query page := inr None;
     cx_api_param page logged_in := inr "anon";
     b64encode s := s;
     _download_token basic_auth grant_type := inl (HTTPError code);
     token_type token := Some "Bearer";
     access_token token := Some "secret";
     refresh_time token := 0%Z;
     still_valid refresh := false;
     _download_json url authorization query := inl (HTTPError code) |}.

(** A session that holds the locale of the default language and a token
    that expires at the time [290]. *)
Definition ready_session : Session (Time := Z) :=
  {| _QUERY := {[ "" := Some {[ "locale" := "en-US" ]} ]};
     _BASIC_AUTH := Some "Basic anon:";
     _AUTH_HEADERS := Some "Bearer secret";
     _AUTH_REFRESH := Some 290%Z;
     requests := [] |}.

(** A site that answers the login of [account] with [password] only. *)
Definition login_site (account password : string)
  : LoginSite (Json := Value) (SessionId := string) :=
  {| logged_in_at_start := false;
     get_upsell_data :=
       inr (VDict [("code", VStr "ok");
                  ("data", VDict [("session_id", VStr "0123")])]);
     login a p sid :=
       inr (if bool_decide (a = account ∧ p = password ∧ sid = "0123")
            then VDict [("code", VStr "ok")]
            else VDict [("code", VStr "error"); ("message", VStr "Incorrect login")]);
     logged_in_after_login := true;
     code_is_ok reply :=
       match reply with
       | VDict d => (λ code, scalar_eqb code (VStr "ok")) <$> Dict.get "code" d
       | _ => None
       end;
     session_id_of reply :=
       match reply with
       | VDict d =>
           match Dict.get "data" d with
           | Some (VDict data) =>
               match Dict.get "session_id" data with
               | Some (VStr sid) => Some sid
               | _ => None
               end
           | _ => None
           end
       | _ => None
       end;
     message_of reply :=
       match reply with
       | VDict d =>
           match Dict.get "message" d with
           | Some (VStr message) => Some message
           | _ => None
           end
       | _ => None
       end |}.

(** The signed policy of [site]: every reply holds a policy that expires
    at the time [600]. *)
Definition cms_site (now : Z)
  : CmsWorld (Page := string) (Json := Value) (Time := Z) (Token := Z)
      (Policy := unit) :=
  {| api := site now;
     cms_web reply :=
       match reply with
       | Some _ => inr ()
       | None => inl TypeError
       end;
     signature_query response :=
       Some {[ "Policy" := "p"; "Signature" := "s"; "Key-Pair-Id" := "k" ]};
     bucket_of response := Some "/US/M2/-";
     expiry_of response := inr 590%Z;
     policy_is_fresh expiry := bool_decide (now < expiry)%Z |}.

(** The CMS attributes once that policy is stored. *)
Definition ready_cms : Cms (Time := Z) :=
  {| _CMS_EXPIRY := Some 590%Z;
     _CMS_QUERY := Some {[ "Policy" := "p"; "Signature" := "s"; "Key-Pair-Id" := "k" ]};
     _CMS_BUCKET := Some "/US/M2/-" |}.

End SessionExamples.

(** * Properties *)

(** ** Dictionaries *)

Section dict_lemmas.
Context {K V : Type} `{EqDecision K}.
Implicit Types (d : list (K * V)) (k : K).




Lemma get_None k d : Dict.get k d = None ↔ k ∉ Dict.keys d.
Proof.
  unfold Dict.keys. induction d as [|[k' v] d IH]; cbn.
  - split; [intros _; apply not_elem_of_nil | done].
  - rewrite not_elem_of_cons, <- IH. case_bool_decide.
    + split; [done | intros [? _]; congruence].
    + split; [intros ?; split; [congruence | done] | tauto].
Qed.

Lemma get_Some_elem k v d : Dict.get k d = Some v → (k, v) ∈ d.
Proof.
  induction d as [|[k' v'] d IH]; cbn; [done|].
  case_bool_decide; [intros [= ->]; subst; left | right; auto].
Qed.



Lemma remove_absent k d : k ∉ Dict.keys d → Dict.remove k d = d.
Proof.
  unfold Dict.keys. induction d as [|[k' v] d IH]; cbn; [done|].
  rewrite not_elem_of_cons. intros [? ?].
  rewrite bool_decide_eq_false_2 by done. f_equal; auto.
Qed.

Lemma get_set k k' v d :
  Dict.get k (Dict.set k' v d) = if bool_decide (k' = k) then Some v else Dict.get k d.
Proof.
  induction d as [|[k0 v0] d IH]; cbn; [done|].
  destruct (bool_decide (k0 = k')) eqn:E0; cbn.
  - apply bool_decide_eq_true in E0 as ->. by case_bool_decide.
  - rewrite IH. apply bool_decide_eq_false in E0.
    repeat case_bool_decide; congruence.
Qed.

Lemma elem_of_set k v d kv : kv ∈ Dict.set k v d → kv = (k, v) ∨ kv ∈ d.
Proof.
  induction d as [|[k0 v0] d IH]; cbn.
  - intros ->%list_elem_of_singleton. by left.
  - case_bool_decide.
    + intros [->|?]%elem_of_cons; [by left | right; by right].
    + intros [->|?]%elem_of_cons; [right; by left|].
      destruct IH as [?|?]; [done | by left | right; by right].
Qed.

Lemma keys_set k v d :
  Dict.keys (Dict.set k v d)
  = if bool_decide (k ∈ Dict.keys d) then Dict.keys d else Dict.keys d ++ [k].
Proof.
  unfold Dict.keys. induction d as [|[k0 v0] d IH]; cbn; [done|].
  destruct (decide (k0 = k)) as [->|Hne].
  - rewrite (bool_decide_eq_true_2 (k = k)) by done. cbn.
    rewrite bool_decide_eq_true_2; [done | left].
  - rewrite (bool_decide_eq_false_2 (k0 = k)) by done. cbn. rewrite IH.
    destruct (decide (k ∈ d.*1)) as [Hin|Hnin].
    + rewrite (bool_decide_eq_true_2 (k ∈ d.*1)) by done.
      rewrite bool_decide_eq_true_2; [done | by right].
    + rewrite (bool_decide_eq_false_2 (k ∈ d.*1)) by done.
      rewrite bool_decide_eq_false_2; [done|].
      rewrite not_elem_of_cons. split; [congruence | done].
Qed.

Lemma keys_set_NoDup k v d : NoDup (Dict.keys d) → NoDup (Dict.keys (Dict.set k v d)).
Proof.
  intros Hd. rewrite keys_set. case_bool_decide; [done|].
  apply NoDup_app. split_and!; [done| |apply NoDup_singleton].
  intros x Hx ->%list_elem_of_singleton. done.
Qed.

(** Assignments in a row: the last assignment to a key is the one read. *)
Lemma get_fold_set {A} (key : A → K) (val : A → V) (l : list A) d k :
  Dict.get k (fold_left (λ d a, Dict.set (key a) (val a) d) l d)
  = match last (filter (λ a, key a = k) l) with
    | Some a => Some (val a)
    | None => Dict.get k d
    end.
Proof.
  induction l as [|a l IH] using rev_ind; [done|].
  rewrite fold_left_app, filter_app, last_app. cbn [fold_left].
  rewrite get_set, filter_cons, filter_nil.
  case_bool_decide as E; destruct (decide (key a = k)); try done.
Qed.

Lemma fold_set_NoDup {A} (key : A → K) (val : A → V) (l : list A) d :
  NoDup (Dict.keys d) →
  NoDup (Dict.keys (fold_left (λ d a, Dict.set (key a) (val a) d) l d)).
Proof.
  revert d. induction l as [|a l IH]; intros d Hd; [done|].
  cbn. by apply IH, keys_set_NoDup.
Qed.

Lemma fold_set_elem_of {A} (key : A → K) (val : A → V) (l : list A) d kv :
  kv ∈ fold_left (λ d a, Dict.set (key a) (val a) d) l d →
  kv ∈ d ∨ ∃ a, a ∈ l ∧ kv = (key a, val a).
Proof.
  revert d. induction l as [|a l IH]; intros d; cbn; [by left|].
  intros [[->|?]%elem_of_set|(a' & ? & ?)]%IH.
  - right. exists a. split; [left | done].
  - by left.
  - right. exists a'. split; [by right | done].
Qed.

Lemma get_elem_of_NoDup k v d :
  NoDup (Dict.keys d) → (k, v) ∈ d → Dict.get k d = Some v.
Proof.
  unfold Dict.keys. induction d as [|[k0 v0] d IH]; cbn.
  - by intros _ ?%elem_of_nil.
  - intros [Hk0 Hd]%NoDup_cons [[= -> ->]|Hin]%elem_of_cons.
    + by rewrite bool_decide_eq_true_2.
    + rewrite bool_decide_eq_false_2; [by apply IH|].
      intros ->. apply Hk0. apply list_elem_of_fmap. by exists (k, v).
Qed.
End dict_lemmas.

(** ** The version table *)

Lemma langs_or_unknown_empty : langs_or_unknown ∅ = [None].
Proof. unfold langs_or_unknown. by rewrite elements_empty. Qed.

Lemma build_lang_table_rows internal_id versions :
  build_lang_table internal_id versions
  = (versions ≫= version_rows) ++ [(Some internal_id, Some _DEFAULT_LANG)].
Proof.
  unfold build_lang_table. f_equal.
  induction versions as [|v versions IH]; [done|].
  cbn. by rewrite IH.
Qed.

Lemma version_rows_ids version row :
  row ∈ version_rows version → row.1 = guid version ∧ truthy_id (guid version) = true.
Proof.
  unfold version_rows, lang_rows.
  destruct (truthy_id (guid version)) eqn:Hid; [|by intros ?%elem_of_nil].
  intros (lang & -> & _)%list_elem_of_fmap. done.
Qed.

Lemma truthy_id_Some vid : truthy_id vid = true → is_Some vid.
Proof. destruct vid; [eauto | done]. Qed.

(** C10: in the language table built from the version descriptors, a
    descriptor whose id is missing (or empty) contributes no row, a
    descriptor with an id and an empty language set contributes exactly
    the one row of the unknown language [None], the row of the default
    language bound to the requested id is the last row, and every row has
    a non-null version id. *)
Theorem lang_table_rows (internal_id : string) (versions : list Version) :
  build_lang_table internal_id versions
  = (versions ≫= version_rows) ++ [(Some internal_id, Some _DEFAULT_LANG)]
  ∧ (∀ version, guid version = None → version_rows version = [])
  ∧ (∀ version, truthy_id (guid version) = false → version_rows version = [])
  ∧ (∀ version, truthy_id (guid version) = true →
       _get_audio_langs_from_data version = ∅ →
       version_rows version = [(guid version, None)])
  ∧ last (build_lang_table internal_id versions)
    = Some (Some internal_id, Some _DEFAULT_LANG)
  ∧ Forall (λ row : VersionRow, is_Some row.1) (build_lang_table internal_id versions).
Proof.
  split_and!.
  - apply build_lang_table_rows.
  - intros version Hg. unfold version_rows, lang_rows. by rewrite Hg.
  - intros version Hg. unfold version_rows, lang_rows. by rewrite Hg.
  - intros version Hg Hl. unfold version_rows, lang_rows.
    by rewrite Hg, Hl, langs_or_unknown_empty.
  - rewrite build_lang_table_rows. apply last_snoc.
  - rewrite build_lang_table_rows. apply Forall_app. split.
    + apply Forall_forall. intros row (version & Hrow & _)%list_elem_of_bind.
      apply version_rows_ids in Hrow as [-> Hid]. by apply truthy_id_Some.
    + apply Forall_singleton. cbn. eauto.
Qed.

(** The table of an item [A] whose versions are a Japanese [B] named by
    both fields, a descriptor without id, a descriptor [C] without
    language and a descriptor whose id is empty. *)
Example lang_table_of_four_descriptors :
  build_lang_table "A"
    [ {| guid := Some "B"; audio_locales := ["ja-JP"]; audio_locale := Some " JA-jp" |};
      {| guid := None; audio_locales := ["en-US"]; audio_locale := None |};
      {| guid := Some "C"; audio_locales := []; audio_locale := None |};
      {| guid := Some ""; audio_locales := []; audio_locale := Some "de-DE" |} ]
  = [ (Some "B", Some "ja-jp"); (Some "C", None); (Some "A", Some "@@default") ].
Proof. vm_compute. reflexivity. Qed.

(** ** Fetching the selected versions *)

Section fetch_properties.
Context (get_response_by_id : string → exn + option Response).

Local Abbreviation fetch := (fetch_requested get_response_by_id).


(** A stored [None] of a version that is not found stays stored. *)
Lemma fetch_requested_keeps_None internal_id default_response requested_ids
    results screen results' screen' vid :
  fetch internal_id default_response requested_ids results screen
  = inr (results', screen') →
  vid ≠ internal_id →
  get_response_by_id vid = inr None →
  Dict.get vid results = Some None →
  Dict.get vid results' = Some None.
Proof.
  intros Hfetch Hvid Hnone. revert results screen Hfetch.
  induction requested_ids as [|vid' requested_ids IH]; intros results screen.
  - cbn. by intros [= <- <-].
  - cbn [fetch_requested]. case_bool_decide as Hid.
    + intros Hfetch Hget. eapply IH; [done|].
      rewrite get_set, bool_decide_eq_false_2; [done | congruence].
    + destruct (get_response_by_id vid') as [e|requested_response] eqn:Hvid';
        [done|].
      intros Hfetch Hget. eapply IH; [done|].
      rewrite get_set. case_bool_decide; [|done].
      subst. rewrite Hnone in Hvid'. by injection Hvid' as <-.
Qed.

(** Every requested version that is not found is stored as [None]. *)
Lemma fetch_requested_stores_None internal_id default_response requested_ids
    results screen results' screen' vid :
  fetch internal_id default_response requested_ids results screen
  = inr (results', screen') →
  vid ∈ requested_ids →
  vid ≠ internal_id →
  get_response_by_id vid = inr None →
  Dict.get vid results' = Some None.
Proof.
  intros Hfetch Hin Hvid Hnone. revert results screen Hfetch.
  induction requested_ids as [|vid' requested_ids IH]; intros results screen;
    [by apply elem_of_nil in Hin|].
  cbn [fetch_requested]. apply elem_of_cons in Hin as [<-|Hin].
  - rewrite bool_decide_eq_false_2, Hnone by done.
    intros Hfetch. eapply fetch_requested_keeps_None; [done..|].
    by rewrite get_set, bool_decide_eq_true_2.
  - case_bool_decide; [by apply IH|].
    destruct (get_response_by_id vid'); [done | by apply IH].
Qed.
End fetch_properties.

(** C1: the selector asks for the version [B] of the episode [A] only and
    the API answers 404 for [B]; the warning is printed once, but [B] stays
    in the responses with the value [None], so that the set handed on is
    not empty, the error for no available language is not raised and the
    extraction of [B] fails on [None].  The same happens when [A] itself
    is selected besides [B]: the extraction does not fall back to [A]. *)
Theorem not_found_version_is_kept :
  _get_responses_for_langs (keep_codes ["en-us"]) Examples.only_A "A" []
  = inr ([("B", None)], [not_found_message "B"])
  ∧ _real_extract (keep_codes ["en-us"]) Examples.only_A Examples.extract_fields
      "" "A" []
    = inl AttributeError
  ∧ _get_responses_for_langs (keep_codes [_DEFAULT_LANG; "en-us"]) Examples.only_A "A" []
    = inr ([("A", Some Examples.episode_A); ("B", None)], [not_found_message "B"])
  ∧ _real_extract (keep_codes [_DEFAULT_LANG; "en-us"]) Examples.only_A
      Examples.extract_fields "" "A" []
    = inl AttributeError.
Proof. by vm_compute. Qed.

(** ** Merging the versions *)

(** *** The choice of the main response *)

Lemma choose_primary_requested internal_id responses r :
  Dict.get internal_id responses = Some (Some r) →
  choose_primary internal_id responses
  = inr ((internal_id, Some r), Dict.remove internal_id responses).
Proof. intros H. unfold choose_primary. by rewrite H. Qed.


Section merge_properties.
Context (extract_version : string → string → option Response → exn + InfoDict).

Local Abbreviation merge := (_extract_versions_and_merge_results extract_version).

Lemma single_response lang internal_id target_id target_response :
  merge lang internal_id [(target_id, target_response)]
  = extract_version lang target_id target_response.
Proof. done. Qed.

Lemma several_responses lang internal_id responses :
  length responses ≠ 1%nat →
  merge lang internal_id responses
  = merge_results extract_version lang internal_id responses.
Proof. by destruct responses as [|[? ?] [|? ?]]. Qed.

Lemma merge_results_meta lang internal_id responses p rest merged :
  choose_primary internal_id responses = inr (p, rest) →
  merge_results extract_version lang internal_id responses = inr merged →
  ∃ result, extract_version lang p.1 p.2 = inr result ∧ meta merged = meta result.
Proof.
  intros Hp. unfold merge_results. rewrite Hp. destruct p as [vid vr]. cbn.
  destruct (extract_version lang vid vr) as [e|result]; [done|].
  destruct (merge_versions _ _ _ _ _ _) as [e|[fs subs]]; [done|].
  intros [= <-]. eauto.
Qed.

(** The loop on responses whose extraction succeeds. *)
Lemma merge_versions_ok lang result_as_set responses versions fs subs :
  Forall2 (λ e version, extract_version lang e.1 e.2 = inr version)
    responses versions →
  merge_versions extract_version lang result_as_set responses fs subs
  = inr (fs ++ (versions ≫= stamped_formats result_as_set),
         fold_left (λ s version, update s (default ∅ (subtitles version)))
           versions subs).
Proof.
  intros H. revert fs subs.
  induction H as [|[vid vr] version responses versions Hv _ IH]; intros fs subs.
  - cbn. by rewrite app_nil_r.
  - cbn in Hv. cbn [merge_versions]. rewrite Hv, IH.
    cbn [fold_left]. by rewrite bind_cons, app_assoc.
Qed.

Lemma merge_results_ok lang internal_id responses p rest result versions :
  choose_primary internal_id responses = inr (p, rest) →
  extract_version lang p.1 p.2 = inr result →
  Forall2 (λ e version, extract_version lang e.1 e.2 = inr version) rest versions →
  merge_results extract_version lang internal_id responses
  = inr {| meta := meta result;
           formats :=
             Some (default [] (formats result)
                   ++ (versions ≫= stamped_formats (as_set (setdefaults result))));
           subtitles :=
             Some (fold_left (λ s version, update s (default ∅ (subtitles version)))
                     versions (default ∅ (subtitles result))) |}.
Proof.
  intros Hp Hr Hv. unfold merge_results. rewrite Hp. destruct p as [vid vr].
  cbn in Hr. rewrite Hr. by rewrite (merge_versions_ok _ _ _ versions).
Qed.
End merge_properties.

(** *** Differences between two info dicts *)

Lemma scalar_eqb_eq a b : hashable a = true → scalar_eqb a b = true ↔ a = b.
Proof.
  destruct a, b; cbn; try done; intros _;
    rewrite bool_decide_eq_true; split; congruence.
Qed.

Lemma as_set_lookup info k x :
  as_set info !! k = Some x ↔ items info !! k = Some x ∧ hashable x = true.
Proof.
  unfold as_set. rewrite map_lookup_filter_Some.
  unfold is_attribute_hashable. cbn. by rewrite Is_true_true.
Qed.

Lemma set_difference_lookup version result k x :
  set_difference (as_set version) (as_set result) !! k = Some x
  ↔ items version !! k = Some x ∧ hashable x = true ∧ items result !! k ≠ Some x.
Proof.
  unfold set_difference. rewrite map_lookup_filter_Some, as_set_lookup.
  unfold not_in_set. cbn. rewrite Is_true_true.
  split.
  - intros [[Hv Hx] Hd]. split_and!; [done..|].
    intros Hr. rewrite (proj2 (as_set_lookup result k x)) in Hd by done.
    apply negb_true_iff in Hd.
    by rewrite (proj2 (scalar_eqb_eq x x Hx)) in Hd.
  - intros (Hv & Hx & Hr). split; [done|].
    destruct (as_set result !! k) as [y|] eqn:Hy; [|done].
    apply negb_true_iff, not_true_is_false. intros ->%scalar_eqb_eq; [|done].
    by apply as_set_lookup in Hy as [? _].
Qed.

Lemma update_lookup (d other : gmap string Value) k :
  update d other !! k
  = match other !! k with Some x => Some x | None => d !! k end.
Proof.
  unfold update. rewrite lookup_union.
  by destruct (other !! k), (d !! k).
Qed.

(** *** Subtitles written by several versions *)

Lemma merged_subtitles_untouched versions base k :
  (∀ version, version ∈ versions → default ∅ (subtitles version) !! k = None) →
  merged_subtitles versions base !! k = base !! k.
Proof.
  unfold merged_subtitles. revert base.
  induction versions as [|version versions IH]; intros base Hk; [done|].
  cbn [fold_left]. rewrite IH.
  - rewrite update_lookup, Hk; [done | left].
  - intros v Hv. apply Hk. by right.
Qed.

Lemma merged_subtitles_last versions1 version versions2 base k x :
  default ∅ (subtitles version) !! k = Some x →
  (∀ later, later ∈ versions2 → default ∅ (subtitles later) !! k = None) →
  merged_subtitles (versions1 ++ version :: versions2) base !! k = Some x.
Proof.
  intros Hx Hlater. unfold merged_subtitles.
  rewrite fold_left_app. cbn [fold_left].
  fold (merged_subtitles versions1 base).
  match goal with |- fold_left ?f versions2 ?b !! k = _ =>
    change (merged_subtitles versions2 b !! k = Some x) end.
  rewrite merged_subtitles_untouched by done.
  by rewrite update_lookup, Hx.
Qed.

(** C4: a dictionary with one entry is returned as the extraction of
    that entry, with nothing merged.  But a version that was not found
    stays in the dictionary: when the requested episode [A] is selected
    together with its version [B] and the API answers 404 for [B], one
    version was found and its extraction succeeds, yet the dictionary
    holds two entries, the merge runs and the extraction of the entry of
    [B] fails on [None] instead of [A] being returned. *)
Theorem lone_found_version_is_not_returned :
  (∀ (extract_version : string → string → option Response → exn + InfoDict)
     lang internal_id target_id target_response,
     _extract_versions_and_merge_results extract_version lang internal_id
       [(target_id, target_response)]
     = extract_version lang target_id target_response)
  ∧ _get_responses_for_langs (keep_codes [_DEFAULT_LANG; "en-us"]) Examples.only_A "A" []
    = inr ([("A", Some Examples.episode_A); ("B", None)], [not_found_message "B"])
  ∧ _extract_version Examples.extract_fields "" "A" (Some Examples.episode_A)
    = inr (Examples.info_of "A" Examples.episode_A)
  ∧ _extract_versions_and_merge_results (_extract_version Examples.extract_fields)
      "" "A" [("A", Some Examples.episode_A); ("B", None)]
    = inl AttributeError
  ∧ _real_extract (keep_codes [_DEFAULT_LANG; "en-us"]) Examples.only_A
      Examples.extract_fields "" "A" []
    = inl AttributeError.
Proof.
  split; [intros; apply single_response|].
  repeat split; vm_compute; reflexivity.
Qed.

(** C8: a response found for the requested id is the main response.  But
    a version that was not found stays among the responses and can be
    taken instead of a found one: when the versions [B], [C] and [D] of
    the episode [A] are selected without [A] itself and the API answers
    404 for [D], two versions were found and their extractions succeed,
    yet the entry taken as the main response is the one of [D], inserted
    last, and its extraction fails on [None]. *)
Theorem not_found_version_becomes_primary :
  (∀ internal_id responses r,
     Dict.get internal_id responses = Some (Some r) →
     choose_primary internal_id responses
     = inr ((internal_id, Some r), Dict.remove internal_id responses))
  ∧ _get_responses_for_langs (keep_codes ["en-us"; "de-de"; "fr-fr"])
      MoreExamples.without_D "A" []
    = inr ([("B", Some Examples.episode_B); ("C", Some MoreExamples.episode_C);
            ("D", None)],
           [not_found_message "D"])
  ∧ choose_primary "A"
      [("B", Some Examples.episode_B); ("C", Some MoreExamples.episode_C); ("D", None)]
    = inr (("D", None),
           [("B", Some Examples.episode_B); ("C", Some MoreExamples.episode_C)])
  ∧ _extract_version Examples.extract_fields "" "B" (Some Examples.episode_B)
    = inr (Examples.info_of "B" Examples.episode_B)
  ∧ _extract_version Examples.extract_fields "" "C" (Some MoreExamples.episode_C)
    = inr (Examples.info_of "C" MoreExamples.episode_C)
  ∧ _extract_versions_and_merge_results (_extract_version Examples.extract_fields)
      "" "A"
      [("B", Some Examples.episode_B); ("C", Some MoreExamples.episode_C); ("D", None)]
    = inl AttributeError
  ∧ _real_extract (keep_codes ["en-us"; "de-de"; "fr-fr"]) MoreExamples.without_D
      Examples.extract_fields "" "A" []
    = inl AttributeError.
Proof.
  split; [apply choose_primary_requested|].
  repeat split; vm_compute; reflexivity.
Qed.

(** C5: when several responses are merged, the differences of a further
    version are the pairs [(key, value)] of its info dict with a hashable
    value that the main result does not hold; each of its formats is
    updated with exactly these pairs, the formats of the main result are
    kept as they are, and no value that is not hashable is written. *)
Theorem differences_are_stamped
    (extract_version : string → string → option Response → exn + InfoDict)
    (lang internal_id : string) (responses : list (string * option Response))
    (p : string * option Response) (rest : list (string * option Response))
    (result : InfoDict) (versions : list InfoDict) :
  length responses ≠ 1%nat →
  choose_primary internal_id responses = inr (p, rest) →
  extract_version lang p.1 p.2 = inr result →
  Forall2 (λ e version, extract_version lang e.1 e.2 = inr version) rest versions →
  let differences version :=
    set_difference (as_set version) (as_set (setdefaults result)) in
  ∃ merged,
    _extract_versions_and_merge_results extract_version lang internal_id responses
    = inr merged
    ∧ formats merged
      = Some (default [] (formats result)
              ++ (versions ≫= λ version,
                    (λ f, update f (differences version))
                      <$> default [] (formats version)))
    ∧ (∀ version k x,
         differences version !! k = Some x
         ↔ items version !! k = Some x
           ∧ hashable x = true
           ∧ items (setdefaults result) !! k ≠ Some x)
    ∧ (∀ version f k,
         update f (differences version) !! k
         = match differences version !! k with
           | Some x => Some x
           | None => f !! k
           end).
Proof.
  intros Hlen Hp Hr Hv differences.
  rewrite several_responses by done.
  rewrite (merge_results_ok _ _ _ _ _ _ _ _ Hp Hr Hv).
  eexists. split; [done|]. split_and!.
  - done.
  - intros version k x. apply set_difference_lookup.
  - intros version f k. apply update_lookup.
Qed.

Lemma differences_are_stamped_witness :
  ∃ merged,
    _extract_versions_and_merge_results
      (_extract_version Examples.extract_fields) "" "A" Examples.two_versions
    = inr merged
    ∧ map_to_list <$> default [] (formats merged)
      = [ [("format_id", VStr "A")];
          [("id", VStr "B"); ("format_id", VStr "B"); ("title", VStr "Titel")] ].
Proof.
  destruct (differences_are_stamped (_extract_version Examples.extract_fields)
              "" "A" Examples.two_versions
              ("A", Some Examples.episode_A) [("B", Some Examples.episode_B)]
              (Examples.info_of "A" Examples.episode_A)
              [Examples.info_of "B" Examples.episode_B])
    as (merged & Hmerged & Hformats & _).
  - cbn. lia.
  - vm_compute. reflexivity.
  - reflexivity.
  - repeat constructor.
  - exists merged. split; [exact Hmerged|].
    rewrite Hformats. vm_compute. reflexivity.
Defined.

(** C7: when several responses are merged, the formats of the further
    versions are appended to the formats of the main result in the order
    of the responses: the merged list is the list of the main result
    followed, version after version, by each format of the version with
    the differences of the version written over it, and these differences
    are members of the version itself.  Their subtitles are written over
    the subtitles of the main result: for a locale, the entry of the last
    version that has one is kept, and the entry of the main result when
    no further version has one. *)
Theorem formats_and_subtitles_are_merged
    (extract_version : string → string → option Response → exn + InfoDict)
    (lang internal_id : string) (responses : list (string * option Response))
    (p : string * option Response) (rest : list (string * option Response))
    (result : InfoDict) (versions : list InfoDict) :
  length responses ≠ 1%nat →
  choose_primary internal_id responses = inr (p, rest) →
  extract_version lang p.1 p.2 = inr result →
  Forall2 (λ e version, extract_version lang e.1 e.2 = inr version) rest versions →
  let differences version :=
    set_difference (as_set version) (as_set (setdefaults result)) in
  let base := default ∅ (subtitles result) in
  ∃ merged,
    _extract_versions_and_merge_results extract_version lang internal_id responses
    = inr merged
    ∧ formats merged
      = Some (default [] (formats result)
              ++ (versions ≫= λ version,
                    (λ f, update f (differences version))
                      <$> default [] (formats version)))
    ∧ (∀ version f k,
         update f (differences version) !! k
         = match differences version !! k with
           | Some x => Some x
           | None => f !! k
           end)
    ∧ (∀ version k x,
         differences version !! k = Some x →
         items version !! k = Some x ∧ hashable x = true)
    ∧ subtitles merged = Some (merged_subtitles versions base)
    ∧ (∀ versions1 version versions2 k x,
         versions = versions1 ++ version :: versions2 →
         default ∅ (subtitles version) !! k = Some x →
         (∀ later, later ∈ versions2 → default ∅ (subtitles later) !! k = None) →
         merged_subtitles versions base !! k = Some x)
    ∧ (∀ k,
         (∀ version, version ∈ versions → default ∅ (subtitles version) !! k = None) →
         merged_subtitles versions base !! k = base !! k).
Proof.
  intros Hlen Hp Hr Hv differences base.
  rewrite several_responses by done.
  rewrite (merge_results_ok _ _ _ _ _ _ _ _ Hp Hr Hv).
  eexists. split; [done|]. split_and!.
  - done.
  - intros version f k. apply update_lookup.
  - intros version k x Hx. apply set_difference_lookup in Hx. tauto.
  - done.
  - intros versions1 version versions2 k x -> Hx Hlater.
    by apply merged_subtitles_last.
  - intros k Hk. by apply merged_subtitles_untouched.
Qed.

Lemma formats_and_subtitles_are_merged_witness :
  ∃ merged,
    _extract_versions_and_merge_results
      (_extract_version Examples.extract_fields) "" "A" Examples.two_versions
    = inr merged
    ∧ map_to_list <$> default [] (formats merged)
      = [ [("format_id", VStr "A")];
          [("id", VStr "B"); ("format_id", VStr "B"); ("title", VStr "Titel")] ]
    ∧ default ∅ (subtitles merged) !! "en-US" = Some (VStr "B").
Proof.
  destruct (formats_and_subtitles_are_merged
              (_extract_version Examples.extract_fields)
              "" "A" Examples.two_versions
              ("A", Some Examples.episode_A) [("B", Some Examples.episode_B)]
              (Examples.info_of "A" Examples.episode_A)
              [Examples.info_of "B" Examples.episode_B])
    as (merged & Hmerged & Hformats & _ & _ & Hsubtitles & _).
  - cbn. lia.
  - vm_compute. reflexivity.
  - reflexivity.
  - repeat constructor.
  - exists merged. split; [exact Hmerged|].
    rewrite Hformats, Hsubtitles. split; vm_compute; reflexivity.
Defined.

(** ** Format extraction *)

Section extract_formats_properties.
Context (self : Extractor).

Lemma fold_left_bind {A B C} (f : A → C → A) (g : B → list C) (l : list B) a :
  fold_left f (l ≫= g) a = fold_left (λ a x, fold_left f (g x) a) l a.
Proof.
  revert a. induction l as [|x l IH]; intros a; [done|].
  by rewrite bind_cons, fold_left_app, IH.
Qed.

Lemma fold_left_ext {A B} (f g : A → B → A) (l : list B) a :
  (∀ a x, f a x = g a x) → fold_left f l a = fold_left g l a.
Proof.
  intros Hfg. revert a. induction l as [|x l IH]; intros a; [done|].
  cbn. by rewrite Hfg, IH.
Qed.

Lemma fold_left_fmap {A B C} (f : A → C → A) (g : B → C) (l : list B) a :
  fold_left f (g <$> l) a = fold_left (λ a x, f a (g x)) l a.
Proof. revert a. induction l as [|x l IH]; intros a; [done|]. cbn. apply IH. Qed.

(** The two loops as one sequence of assignments. *)
Lemma available_formats_assignments stream_response :
  available_formats self stream_response
  = fold_left
      (λ available (sv : string * Stream),
         Dict.set (default "" (hardsub_locale sv.2)) (stream_entry self sv.1 sv.2)
           available)
      (kept_streams self stream_response) [].
Proof.
  unfold available_formats, kept_streams. rewrite fold_left_bind.
  apply fold_left_ext. intros available [stream_type streams]. cbn.
  case_bool_decide; [|done]. by rewrite fold_left_fmap.
Qed.

Lemma available_formats_get stream_response h :
  Dict.get h (available_formats self stream_response)
  = (λ sv : string * Stream, stream_entry self sv.1 sv.2)
      <$> last (filter (λ sv : string * Stream, default "" (hardsub_locale sv.2) = h)
                  (kept_streams self stream_response)).
Proof.
  rewrite available_formats_assignments.
  rewrite (get_fold_set (λ sv : string * Stream, default "" (hardsub_locale sv.2))
             (λ sv : string * Stream, stream_entry self sv.1 sv.2)).
  by destruct (last _).
Qed.

Lemma available_formats_NoDup stream_response :
  NoDup (Dict.keys (available_formats self stream_response)).
Proof.
  rewrite available_formats_assignments.
  apply (fold_set_NoDup (λ sv : string * Stream, default "" (hardsub_locale sv.2))
           (λ sv : string * Stream, stream_entry self sv.1 sv.2)).
  constructor.
Qed.

Lemma available_formats_elem_of stream_response h e :
  (h, e) ∈ available_formats self stream_response →
  ∃ sv, sv ∈ kept_streams self stream_response
        ∧ h = default "" (hardsub_locale sv.2)
        ∧ e = stream_entry self sv.1 sv.2.
Proof.
  rewrite available_formats_assignments.
  intros [[]%elem_of_nil|(sv & Hsv & [= -> ->])]%fold_set_elem_of.
  eauto.
Qed.

Lemma kept_streams_elem_of stream_response sv :
  sv ∈ kept_streams self stream_response
  ↔ ∃ streams',
      (sv.1, streams') ∈ streams stream_response ++ data0 stream_response
      ∧ sv.1 ∈ requested_formats self
      ∧ sv.2 ∈ streams'
      ∧ has_url sv.2 = true.
Proof.
  unfold kept_streams. rewrite list_elem_of_bind. split.
  - intros ([stream_type streams'] & Hsv & Hitem). cbn in Hsv.
    case_bool_decide; [|by apply elem_of_nil in Hsv].
    apply list_elem_of_fmap in Hsv as (v & -> & Hv).
    apply list_elem_of_filter in Hv as [Hurl Hv].
    exists streams'. cbn. split_and!; try done. by apply Is_true_true.
  - intros (streams' & Hitem & Hreq & Hv & Hurl).
    exists (sv.1, streams'). split; [|done]. cbn.
    rewrite bool_decide_eq_true_2 by done.
    apply list_elem_of_fmap. exists sv.2. split; [by destruct sv|].
    apply list_elem_of_filter. split; [by apply Is_true_true | done].
Qed.

Lemma entry_key stream_response e :
  e ∈ Dict.values (available_formats self stream_response) →
  entry_hardsub_lang e ∈ Dict.keys (available_formats self stream_response).
Proof.
  unfold Dict.values, Dict.keys.
  intros ([h e'] & -> & He)%list_elem_of_fmap.
  pose proof He as (sv & _ & -> & ->)%available_formats_elem_of.
  apply list_elem_of_fmap. by exists (default "" (hardsub_locale sv.2), stream_entry self sv.1 sv.2).
Qed.

Lemma extract_entry_formats full audio_locale fs screen e :
  ∃ screen',
    extract_entry self full audio_locale (fs, screen) e
    = (fs ++ entry_formats self full audio_locale e, screen').
Proof.
  unfold extract_entry, entry_formats.
  destruct (adaptive_formats self full e); eexists; [done|].
  by rewrite app_nil_r.
Qed.

(** The formats returned are those of the entries, in their order. *)
Lemma extract_entries_formats full audio_locale entries fs screen :
  (fold_left (extract_entry self full audio_locale) entries (fs, screen)).1
  = fs ++ (entries ≫= entry_formats self full audio_locale).
Proof.
  revert fs screen. induction entries as [|e entries IH]; intros fs screen.
  - cbn. by rewrite app_nil_r.
  - cbn [fold_left]. rewrite bind_cons.
    destruct (extract_entry_formats full audio_locale fs screen e) as [screen' ->].
    by rewrite IH, app_assoc.
Qed.

Lemma extract_formats_entries stream_response screen :
  (_extract_formats self stream_response screen).1
  = Dict.values (available_formats self stream_response)
      ≫= entry_formats self
           (full_format_langs self (available_formats self stream_response))
           (audio_locale_of stream_response).
Proof. unfold _extract_formats. by rewrite extract_entries_formats. Qed.
End extract_formats_properties.

(** C2: format extraction keeps the streams of the requested stream types
    that have a non-empty URL and keys them by their hardsub language
    alone, as it is written in the manifest: the entry read for a hardsub
    language is the one of the last kept stream with that language,
    whatever its stream type, and no key occurs twice. *)
Theorem available_formats_keyed_by_hardsub
    (self : Extractor) (stream_response : StreamResponse) :
  (∀ sv : string * Stream,
     sv ∈ kept_streams self stream_response
     ↔ ∃ streams',
         (sv.1, streams') ∈ streams stream_response ++ data0 stream_response
         ∧ sv.1 ∈ requested_formats self
         ∧ sv.2 ∈ streams'
         ∧ has_url sv.2 = true)
  ∧ (∀ h,
       Dict.get h (available_formats self stream_response)
       = (λ sv : string * Stream, stream_entry self sv.1 sv.2)
           <$> last (filter (λ sv : string * Stream,
                               default "" (hardsub_locale sv.2) = h)
                       (kept_streams self stream_response)))
  ∧ NoDup (Dict.keys (available_formats self stream_response))
  ∧ (∀ h e,
       (h, e) ∈ available_formats self stream_response
       ↔ Dict.get h (available_formats self stream_response) = Some e).
Proof.
  split_and!.
  - apply kept_streams_elem_of.
  - apply available_formats_get.
  - apply available_formats_NoDup.
  - intros h e. split.
    + apply get_elem_of_NoDup, available_formats_NoDup.
    + apply get_Some_elem.
Qed.

(** C2, counterexample: with HLS and DASH both requested, the untagged
    and the English stream of either type make four pairs of hardsub
    language and stream type, but two entries are kept, the DASH ones;
    and two HLS streams whose hardsub language differs in case only are
    both kept, where the case-folded key holds one. *)
Lemma available_formats_not_keyed_by_pair :
  Dict.values
    (available_formats (Examples.extractor ["adaptive_hls"; "adaptive_dash"] [])
       Examples.hls_dash_manifest)
  = [ ("adaptive_dash", "adaptive_dash", "", "https://cdn/dash");
      ("adaptive_dash", "adaptive_dash-hardsub-en-US", "en-US", "https://cdn/dash-en") ]
  ∧ Dict.keys
      (available_formats_by_pair
         (Examples.extractor ["adaptive_hls"; "adaptive_dash"] [])
         Examples.hls_dash_manifest)
    = [ ("", "adaptive_hls"); ("en-us", "adaptive_hls");
        ("", "adaptive_dash"); ("en-us", "adaptive_dash") ]
  ∧ Dict.keys (available_formats (Examples.extractor [] []) Examples.mixed_case_manifest)
    = [ "en-US"; "en-us" ]
  ∧ Dict.keys
      (available_formats_by_pair (Examples.extractor [] []) Examples.mixed_case_manifest)
    = [ ("en-us", "adaptive_hls") ].
Proof. by vm_compute. Qed.

(** *** Expansion *)

#[local] Arguments PyStr.endswith : simpl never.
#[local] Arguments PyStr.lower : simpl never.

Section expansion.
Context (self : Extractor).

Lemma restricts_expansion_true available :
  restricts_expansion self available = true
  ↔ "" ∈ Dict.keys available ∧ "all" ∉ requested_hardsubs self.
Proof.
  unfold restricts_expansion.
  rewrite andb_true_iff, negb_true_iff, bool_decide_eq_true, bool_decide_eq_false.
  done.
Qed.

Lemma adaptive_formats_hls full e :
  PyStr.endswith (entry_stream_type e) "hls" = true →
  adaptive_formats self full e
  = Some (if bool_decide (PyStr.lower (entry_hardsub_lang e) ∈ full)
          then _extract_m3u8_formats self (entry_url e) (entry_format_id e)
          else [_m3u8_meta_format self (entry_url e) (entry_format_id e)]).
Proof.
  destruct e as [[[stream_type format_id] hardsub_lang] stream_url]. cbn.
  intros ->. by case_bool_decide.
Qed.

Lemma adaptive_formats_dash full e :
  PyStr.endswith (entry_stream_type e) "hls" = false →
  PyStr.endswith (entry_stream_type e) "dash" = true →
  adaptive_formats self full e
  = Some (_extract_mpd_formats self (entry_url e) (entry_format_id e)).
Proof.
  destruct e as [[[stream_type format_id] hardsub_lang] stream_url]. cbn.
  by intros -> ->.
Qed.

Lemma adaptive_formats_unknown full e :
  PyStr.endswith (entry_stream_type e) "hls" = false →
  PyStr.endswith (entry_stream_type e) "dash" = false →
  adaptive_formats self full e = None.
Proof.
  destruct e as [[[stream_type format_id] hardsub_lang] stream_url]. cbn.
  by intros -> ->.
Qed.
End expansion.

(** C3: for an available stream whose type ends in [hls]: when an untagged
    stream is available and [all] is not requested, the stream is expanded
    through its playlist if its lower-cased hardsub language is requested
    and gives the single rendition made from its manifest URL otherwise;
    in every other case, so whenever no untagged stream is available, it
    is expanded through its playlist.  A stream whose type ends in [dash]
    is always expanded through its manifest, and a stream of another type
    gives no format. *)
Theorem expansion_by_stream_type
    (self : Extractor) (stream_response : StreamResponse) (screen : list string)
    (e : Entry) :
  let available := available_formats self stream_response in
  let full := full_format_langs self available in
  e ∈ Dict.values available →
  (_extract_formats self stream_response screen).1
  = Dict.values available ≫= entry_formats self full (audio_locale_of stream_response)
  ∧ (restricts_expansion self available = true
     ↔ "" ∈ Dict.keys available ∧ "all" ∉ requested_hardsubs self)
  ∧ (PyStr.endswith (entry_stream_type e) "hls" = true →
     (restricts_expansion self available = true →
      adaptive_formats self full e
      = Some (if bool_decide (PyStr.lower (entry_hardsub_lang e)
                                ∈ requested_hardsubs self)
              then _extract_m3u8_formats self (entry_url e) (entry_format_id e)
              else [_m3u8_meta_format self (entry_url e) (entry_format_id e)]))
     ∧ (restricts_expansion self available = false →
        adaptive_formats self full e
        = Some (_extract_m3u8_formats self (entry_url e) (entry_format_id e))))
  ∧ (PyStr.endswith (entry_stream_type e) "hls" = false →
     PyStr.endswith (entry_stream_type e) "dash" = true →
     adaptive_formats self full e
     = Some (_extract_mpd_formats self (entry_url e) (entry_format_id e)))
  ∧ (PyStr.endswith (entry_stream_type e) "hls" = false →
     PyStr.endswith (entry_stream_type e) "dash" = false →
     adaptive_formats self full e = None
     ∧ entry_formats self full (audio_locale_of stream_response) e = []).
Proof.
  intros available full He. split_and!.
  - apply extract_formats_entries.
  - apply restricts_expansion_true.
  - intros Hhls. rewrite adaptive_formats_hls by done. subst full.
    unfold full_format_langs. split; intros ->; [done|].
    rewrite bool_decide_eq_true_2; [done|].
    apply list_elem_of_fmap. exists (entry_hardsub_lang e).
    split; [done | by apply entry_key].
  - apply adaptive_formats_dash.
  - intros Hhls Hdash. unfold entry_formats.
    by rewrite adaptive_formats_unknown.
Qed.

Lemma expansion_by_stream_type_witness :
  adaptive_formats (Examples.extractor [] ["en-us"])
    (full_format_langs (Examples.extractor [] ["en-us"])
       (available_formats (Examples.extractor [] ["en-us"]) Examples.hls_manifest))
    ("adaptive_hls", "adaptive_hls-hardsub-de-DE", "de-DE", "https://cdn/hls-de")
  = Some [ _m3u8_meta_format (Examples.extractor [] ["en-us"])
             "https://cdn/hls-de" "adaptive_hls-hardsub-de-DE" ]
  ∧ adaptive_formats (Examples.extractor [] ["en-us"])
      (full_format_langs (Examples.extractor [] ["en-us"])
         (available_formats (Examples.extractor [] ["en-us"]) Examples.hls_manifest))
      ("adaptive_hls", "adaptive_hls-hardsub-en-US", "en-US", "https://cdn/hls-en")
    = Some (_extract_m3u8_formats (Examples.extractor [] ["en-us"])
              "https://cdn/hls-en" "adaptive_hls-hardsub-en-US").
Proof.
  split.
  - destruct (expansion_by_stream_type (Examples.extractor [] ["en-us"])
                Examples.hls_manifest []
                ("adaptive_hls", "adaptive_hls-hardsub-de-DE", "de-DE", "https://cdn/hls-de"))
      as (_ & _ & Hhls & _).
    + apply (bool_decide_unpack _). vm_compute. exact I.
    + destruct Hhls as [Hrestricted _]; [vm_compute; reflexivity|].
      apply Hrestricted. vm_compute. reflexivity.
  - destruct (expansion_by_stream_type (Examples.extractor [] ["en-us"])
                Examples.hls_manifest []
                ("adaptive_hls", "adaptive_hls-hardsub-en-US", "en-US", "https://cdn/hls-en"))
      as (_ & _ & Hhls & _).
    + apply (bool_decide_unpack _). vm_compute. exact I.
    + destruct Hhls as [Hrestricted _]; [vm_compute; reflexivity|].
      apply Hrestricted. vm_compute. reflexivity.
Defined.

(** C3, counterexample: DASH is the requested stream type, an untagged
    stream is available and the hardsub request is the default one; the
    English hardsub stream is not requested, so that the rule of the
    specification gives it the single rendition made from its manifest
    URL, but it is expanded through its manifest into two renditions.
    And with no untagged stream available, a hardsub stream of a requested
    type that is neither HLS nor DASH is not expanded: it gives no format
    and a warning. *)
Lemma dash_stream_is_fully_expanded :
  let self := Examples.extractor ["adaptive_dash"] [] in
  let available := available_formats self Examples.hls_dash_manifest in
  let e : Entry :=
    ("adaptive_dash", "adaptive_dash-hardsub-en-US", "en-US", "https://cdn/dash-en") in
  Dict.get "en-US" available = Some e
  ∧ restricts_expansion self available = true
  ∧ bool_decide (PyStr.lower (entry_hardsub_lang e) ∈ requested_hardsubs self) = false
  ∧ specified_formats self available e
    = [ _m3u8_meta_format self "https://cdn/dash-en" "adaptive_dash-hardsub-en-US" ]
  ∧ adaptive_formats self (full_format_langs self available) e
    = Some (_extract_mpd_formats self "https://cdn/dash-en" "adaptive_dash-hardsub-en-US")
  ∧ length (_extract_mpd_formats self "https://cdn/dash-en" "adaptive_dash-hardsub-en-US")
    = 2%nat
  ∧ length (_extract_formats self Examples.hls_dash_manifest []).1 = 4%nat
  ∧ Dict.keys
      (available_formats (Examples.extractor ["multitrack_adaptive_hls_v2"] [])
         Examples.other_type_manifest)
    = ["en-US"]
  ∧ _extract_formats (Examples.extractor ["multitrack_adaptive_hls_v2"] [])
      Examples.other_type_manifest []
    = ([], [unknown_stream_type_message
              (Examples.extractor ["multitrack_adaptive_hls_v2"] [])
              "multitrack_adaptive_hls_v2"]).
Proof. cbv zeta. repeat split; vm_compute; reflexivity. Qed.

(** *** Quality and language of a rendition *)

Lemma index_of_None qid quality_ids :
  index_of qid quality_ids = None ↔ qid ∉ quality_ids.
Proof.
  induction quality_ids as [|q quality_ids IH]; cbn.
  - split; [intros _; apply not_elem_of_nil | done].
  - rewrite not_elem_of_cons. case_bool_decide as E.
    + split; [done | intros [? _]; congruence].
    + rewrite fmap_None, IH. split; [intros ?; split; [congruence | done] | tauto].
Qed.

Lemma index_of_app_l qid l1 l2 :
  qid ∈ l1 → ∃ i, index_of qid (l1 ++ l2) = Some i ∧ (i < length l1)%nat.
Proof.
  induction l1 as [|q l1 IH]; [by intros ?%elem_of_nil|].
  cbn. case_bool_decide as E.
  - intros _. exists 0%nat. split; [done | lia].
  - intros [?|Hin]%elem_of_cons; [congruence|].
    destruct (IH Hin) as (i & -> & Hi). exists (S i). split; [done | lia].
Qed.

Lemma index_of_app_r qid l1 l2 :
  qid ∉ l1 → index_of qid (l1 ++ qid :: l2) = Some (length l1).
Proof.
  induction l1 as [|q l1 IH]; cbn.
  - intros _. by rewrite bool_decide_eq_true_2.
  - intros [Hne Hnin]%not_elem_of_cons.
    rewrite bool_decide_eq_false_2 by congruence. by rewrite IH.
Qed.

Lemma qualities_absent quality_ids qid :
  qid ∉ quality_ids → qualities quality_ids qid = (-1)%Z.
Proof. intros H%index_of_None. unfold qualities. by rewrite H. Qed.

Lemma qualities_present quality_ids qid :
  qid ∈ quality_ids → (0 ≤ qualities quality_ids qid)%Z.
Proof.
  intros H. unfold qualities.
  destruct (index_of qid quality_ids) eqn:E; [lia|].
  by apply index_of_None in E.
Qed.

Lemma qualities_reverse_order l1 a l2 b :
  a ∉ l2 → b ∈ l2 →
  (qualities (reverse (l1 ++ a :: l2)) b < qualities (reverse (l1 ++ a :: l2)) a)%Z.
Proof.
  intros Ha Hb.
  rewrite reverse_app, reverse_cons, <- app_assoc. cbn [app].
  unfold qualities.
  rewrite index_of_app_r by (by rewrite elem_of_reverse).
  destruct (index_of_app_l b (reverse l2) (a :: reverse l1)) as (i & -> & Hi).
  { by rewrite elem_of_reverse. }
  lia.
Qed.

Section tag_format_properties.
Context (self : Extractor).

Lemma acodec_is_none_true f :
  acodec_is_none f = true ↔ f !! "acodec" = Some (VStr "none").
Proof.
  unfold acodec_is_none. destruct (f !! "acodec") as [v|]; [|done].
  rewrite scalar_eqb_eq by done. split; congruence.
Qed.

Lemma tag_format_quality audio_locale hardsub_lang f :
  tag_format self audio_locale hardsub_lang f !! "quality"
  = Some (VInt (hardsub_preference self (PyStr.lower hardsub_lang))).
Proof. unfold tag_format. by rewrite lookup_insert_eq. Qed.

Lemma tag_format_language audio_locale hardsub_lang f :
  tag_format self audio_locale hardsub_lang f !! "language"
  = if acodec_is_none f then f !! "language" else Some audio_locale.
Proof.
  unfold tag_format. rewrite lookup_insert_ne by done.
  destruct (acodec_is_none f); [done|]. by rewrite lookup_insert_eq.
Qed.

Lemma extract_formats_elem_of stream_response screen f :
  let available := available_formats self stream_response in
  let full := full_format_langs self available in
  f ∈ (_extract_formats self stream_response screen).1
  ↔ ∃ e adaptive raw,
      e ∈ Dict.values available
      ∧ adaptive_formats self full e = Some adaptive
      ∧ raw ∈ adaptive
      ∧ f = tag_format self (audio_locale_of stream_response)
              (entry_hardsub_lang e) raw.
Proof.
  intros available full. rewrite extract_formats_entries, list_elem_of_bind.
  fold available. fold full. unfold entry_formats. split.
  - intros (e & Hf & He).
    destruct (adaptive_formats self full e) as [adaptive|] eqn:E;
      [|by apply elem_of_nil in Hf].
    apply list_elem_of_fmap in Hf as (raw & -> & Hraw).
    by exists e, adaptive, raw.
  - intros (e & adaptive & raw & He & E & Hraw & ->).
    exists e. split; [|done]. rewrite E.
    apply list_elem_of_fmap. by exists raw.
Qed.
End tag_format_properties.

Section rendition_fields.
Context (self : Extractor).

(** The value a field has in the renditions returned, in their order:
    those of each available stream, in the order of the streams. *)
Lemma extract_formats_field stream_response screen (k : string)
    (field : Entry → gmap string Value → option Value) :
  (∀ e raw,
     tag_format self (audio_locale_of stream_response) (entry_hardsub_lang e) raw !! k
     = field e raw) →
  (λ f : gmap string Value, f !! k) <$> (_extract_formats self stream_response screen).1
  = Dict.values (available_formats self stream_response) ≫= λ e,
      field e
        <$> default []
              (adaptive_formats self
                 (full_format_langs self (available_formats self stream_response)) e).
Proof.
  intros Hfield. rewrite extract_formats_entries.
  induction (Dict.values (available_formats self stream_response)) as [|e entries IH];
    [done|].
  rewrite !bind_cons, fmap_app, IH. f_equal.
  unfold entry_formats. destruct (adaptive_formats self _ e) as [adaptive|]; [|done].
  cbn [default]. rewrite <- list_fmap_compose. apply list_fmap_ext.
  intros i raw _. apply Hfield.
Qed.
End rendition_fields.

Lemma index_of_last (l1 : list string) h l2 :
  h ∉ l2 → index_of h (reverse (l1 ++ h :: l2)) = Some (length l2).
Proof.
  intros Hh. rewrite reverse_app, reverse_cons, <- app_assoc. cbn [app].
  rewrite index_of_app_r by (by rewrite elem_of_reverse).
  by rewrite length_reverse.
Qed.

(** C6: with [requested] the hardsub languages asked for ([none] standing
    for the empty language, and the empty language alone when nothing is
    asked for), every rendition returned carries as its quality the rank
    of the lower-cased hardsub language of the stream it comes from: the
    position of that language in the reversed list [requested], which is
    the number of requests that follow its last request.  So a language
    whose last request precedes a request of another language ranks
    strictly higher than that one, in a list without repeats every
    language ranks strictly higher than each language requested after it,
    and a language that is not requested has the rank [-1], the lowest
    one, below every requested language. *)
Theorem quality_ranks_hardsub_requests
    (self : Extractor) (stream_response : StreamResponse) (screen : list string) :
  let available := available_formats self stream_response in
  let full := full_format_langs self available in
  let requested :=
    (λ val, if bool_decide (val = "none") then "" else val)
      <$> (match _configuration_arg self "hardsub" with
           | [] => ["none"]
           | l => l
           end) in
  let rank (h : string) : Z := qualities (reverse requested) h in
  ((λ f : gmap string Value, f !! "quality")
     <$> (_extract_formats self stream_response screen).1
   = Dict.values available ≫= λ e,
       (λ _, Some (VInt (rank (PyStr.lower (entry_hardsub_lang e)))))
         <$> default [] (adaptive_formats self full e))
  ∧ (∀ l1 h l2,
       requested = l1 ++ h :: l2 → h ∉ l2 → rank h = Z.of_nat (length l2))
  ∧ (∀ h, h ∉ requested → rank h = (-1)%Z)
  ∧ (∀ h, h ∈ requested → (0 ≤ rank h)%Z)
  ∧ (∀ h, (-1 ≤ rank h)%Z)
  ∧ (∀ l1 a l2 b,
       requested = l1 ++ a :: l2 → a ∉ l2 → b ∈ l2 → (rank b < rank a)%Z)
  ∧ (NoDup requested →
     ∀ l1 a l2 b l3, requested = l1 ++ a :: l2 ++ b :: l3 → (rank b < rank a)%Z).
Proof.
  intros available full requested rank.
  assert (∀ l1 a l2 b,
            requested = l1 ++ a :: l2 → a ∉ l2 → b ∈ l2 → (rank b < rank a)%Z)
    as Horder.
  { intros l1 a l2 b Hreq Ha Hb. unfold rank. rewrite Hreq.
    by apply qualities_reverse_order. }
  split_and!.
  - apply (extract_formats_field self stream_response screen "quality"
             (λ e _, Some (VInt (rank (PyStr.lower (entry_hardsub_lang e)))))).
    intros e raw. apply tag_format_quality.
  - intros l1 h l2 Hreq Hh. unfold rank, qualities.
    by rewrite Hreq, index_of_last.
  - intros h Hh. apply qualities_absent. by rewrite elem_of_reverse.
  - intros h Hh. apply qualities_present. by rewrite elem_of_reverse.
  - intros h. unfold rank, qualities. destruct (index_of h _); lia.
  - done.
  - intros Hnodup l1 a l2 b l3 Hreq. apply (Horder l1 a (l2 ++ b :: l3) b Hreq).
    + rewrite Hreq in Hnodup. apply NoDup_app in Hnodup as (_ & _ & Hnodup).
      by apply NoDup_cons in Hnodup as [? _].
    + apply elem_of_app. right. by left.
Qed.

Lemma quality_ranks_hardsub_requests_witness :
  (λ f : gmap string Value, f !! "quality")
    <$> (_extract_formats (Examples.extractor [] ["en-us"; "de-de"])
           Examples.hls_manifest []).1
  = [Some (VInt (-1)); Some (VInt 0); Some (VInt 0); Some (VInt 1); Some (VInt 1)].
Proof.
  rewrite (proj1 (quality_ranks_hardsub_requests
                    (Examples.extractor [] ["en-us"; "de-de"])
                    Examples.hls_manifest [])).
  vm_compute. reflexivity.
Defined.

(** C9: with [audio_locale] the [audio_locale] of the manifest, the one at
    the top level if there is one, else the one under [meta], else
    [None], every rendition returned has its language set to
    [audio_locale] unless its [acodec] is the string [none]: a rendition
    that has no [acodec] is tagged as well, and a rendition whose
    [acodec] is [none] keeps the language it had, if any. *)
Theorem audio_language_is_tagged
    (self : Extractor) (stream_response : StreamResponse) (screen : list string) :
  let available := available_formats self stream_response in
  let full := full_format_langs self available in
  let audio_locale :=
    match top_audio_locale stream_response with
    | Some l => VStr l
    | None =>
        match meta_audio_locale stream_response with
        | Some l => VStr l
        | None => VNone
        end
    end in
  let language (raw : gmap string Value) : option Value :=
    match raw !! "acodec" with
    | Some (VStr codec) =>
        if bool_decide (codec = "none") then raw !! "language" else Some audio_locale
    | _ => Some audio_locale
    end in
  ((λ f : gmap string Value, f !! "language")
     <$> (_extract_formats self stream_response screen).1
   = Dict.values available ≫= λ e,
       language <$> default [] (adaptive_formats self full e))
  ∧ (∀ raw, raw !! "acodec" = None → language raw = Some audio_locale)
  ∧ (∀ raw codec, raw !! "acodec" = Some codec → codec ≠ VStr "none" →
                  language raw = Some audio_locale)
  ∧ (∀ raw, raw !! "acodec" = Some (VStr "none") → language raw = raw !! "language").
Proof.
  intros available full audio_locale language. split_and!.
  - apply (extract_formats_field self stream_response screen "language"
             (λ _ raw, language raw)).
    intros e raw. rewrite tag_format_language. unfold language.
    destruct (acodec_is_none raw) eqn:E.
    + apply acodec_is_none_true in E. rewrite E. by rewrite bool_decide_eq_true_2.
    + destruct (raw !! "acodec") as [[| |codec| |]|] eqn:Hraw; try done.
      rewrite bool_decide_eq_false_2; [done|]. intros ->.
      by rewrite (proj2 (acodec_is_none_true raw) Hraw) in E.
  - intros raw Hraw. unfold language. by rewrite Hraw.
  - intros raw codec Hraw Hcodec. unfold language. rewrite Hraw.
    destruct codec as [| |codec| |]; try done.
    rewrite bool_decide_eq_false_2; [done|congruence].
  - intros raw Hraw. unfold language. by rewrite Hraw, bool_decide_eq_true_2.
Qed.

Lemma audio_language_is_tagged_witness :
  (λ f : gmap string Value, f !! "language")
    <$> (_extract_formats (Examples.extractor [] ["en-us"]) Examples.hls_manifest []).1
  = [Some (VStr "ja-JP"); Some (VStr "ja-JP"); Some (VStr "ja-JP"); None].
Proof.
  rewrite (proj1 (audio_language_is_tagged (Examples.extractor [] ["en-us"])
                    Examples.hls_manifest [])).
  vm_compute. reflexivity.
Defined.

(** * Further properties *)

(** ** The fetch loop *)

Lemma to_screen_once_elem_of msg screen m :
  m ∈ to_screen_once msg screen ↔ m ∈ screen ∨ m = msg.
Proof.
  unfold to_screen_once. case_bool_decide as Hmsg.
  - split; [by left | intros [?| ->]; done].
  - rewrite elem_of_app, list_elem_of_singleton. done.
Qed.

Lemma to_screen_once_NoDup msg screen : NoDup screen → NoDup (to_screen_once msg screen).
Proof.
  intros Hscreen. unfold to_screen_once. case_bool_decide as Hmsg; [done|].
  apply NoDup_app. split_and!; [done| |apply NoDup_singleton].
  by intros m Hm ->%list_elem_of_singleton.
Qed.

Lemma to_screen_once_prefix msg screen : screen `prefix_of` to_screen_once msg screen.
Proof.
  unfold to_screen_once. case_bool_decide; [done|]. by apply prefix_app_r.
Qed.

Section fetch_loop.
Context (get_response_by_id : string → exn + option Response).
Context (internal_id : string) (default_response : Response).

Local Abbreviation fetch := (fetch_requested get_response_by_id internal_id default_response).

Local Abbreviation stored := (stored_response get_response_by_id internal_id default_response).

Lemma stored_functional vid x y : stored vid x → stored vid y → x = y.
Proof.
  unfold stored_response. intros [[? ->]|[? Hx]] [[? ->]|[? Hy]]; try done.
  congruence.
Qed.

Lemma fetch_requested_keys requested_ids results screen results' screen' :
  fetch requested_ids results screen = inr (results', screen') →
  (NoDup (Dict.keys results) → NoDup (Dict.keys results'))
  ∧ (∀ vid, vid ∈ Dict.keys results'
            ↔ vid ∈ Dict.keys results ∨ vid ∈ requested_ids).
Proof.
  revert results screen.
  induction requested_ids as [|vid' requested_ids IH]; intros results screen.
  - cbn. intros [= <- <-]. split; [done|]. intros vid. rewrite elem_of_nil. tauto.
  - cbn [fetch_requested]. intros Hfetch.
    assert (∃ x screen0,
               fetch requested_ids (Dict.set vid' x results) screen0
               = inr (results', screen')) as (x & screen0 & Hrest).
    { case_bool_decide; [eauto|].
      destruct (get_response_by_id vid'); [done | eauto]. }
    apply IH in Hrest as [Hnodup Hkeys]. split.
    + intros Hresults. by apply Hnodup, keys_set_NoDup.
    + intros vid. rewrite Hkeys, keys_set, elem_of_cons.
      destruct (decide (vid' ∈ Dict.keys results)) as [Hin|Hin].
      * rewrite bool_decide_eq_true_2 by done. intuition (subst; auto).
      * rewrite bool_decide_eq_false_2 by done.
        rewrite elem_of_app, list_elem_of_singleton. tauto.
Qed.

Lemma fetch_requested_get_keeps requested_ids results screen results' screen' vid x :
  fetch requested_ids results screen = inr (results', screen') →
  stored vid x →
  Dict.get vid results = Some x →
  Dict.get vid results' = Some x.
Proof.
  intros Hfetch Hx. revert results screen Hfetch.
  induction requested_ids as [|vid' requested_ids IH]; intros results screen.
  - cbn. by intros [= <- <-].
  - cbn [fetch_requested]. case_bool_decide as Hid.
    + intros Hfetch Hget. eapply IH; [done|].
      rewrite get_set. case_bool_decide as Hvid; [|done].
      f_equal. apply (stored_functional vid); [|done]. left. by subst.
    + destruct (get_response_by_id vid') as [e|y] eqn:Hy; [done|].
      intros Hfetch Hget. eapply IH; [done|].
      rewrite get_set. case_bool_decide as Hvid; [|done].
      f_equal. apply (stored_functional vid); [|done]. right. by subst.
Qed.

Lemma fetch_requested_get requested_ids results screen results' screen' vid :
  fetch requested_ids results screen = inr (results', screen') →
  vid ∈ requested_ids →
  ∃ x, stored vid x ∧ Dict.get vid results' = Some x.
Proof.
  intros Hfetch Hin. revert results screen Hfetch.
  induction requested_ids as [|vid' requested_ids IH]; intros results screen;
    [by apply elem_of_nil in Hin|].
  cbn [fetch_requested]. apply elem_of_cons in Hin as [<-|Hin].
  - case_bool_decide as Hid.
    + intros Hfetch. exists (Some default_response).
      assert (stored vid (Some default_response)) by by left.
      split; [done|]. eapply fetch_requested_get_keeps; [done..|].
      by rewrite get_set, bool_decide_eq_true_2.
    + destruct (get_response_by_id vid) as [e|y] eqn:Hy; [done|].
      intros Hfetch. exists y.
      assert (stored vid y) by by right.
      split; [done|]. eapply fetch_requested_get_keeps; [done..|].
      by rewrite get_set, bool_decide_eq_true_2.
  - case_bool_decide; [by apply IH|].
    destruct (get_response_by_id vid'); [done | by apply IH].
Qed.

(** The first fatal error ends the loop. *)
Lemma fetch_requested_fatal before vid after results screen e :
  Forall (λ v, v = internal_id ∨ ∃ r, get_response_by_id v = inr r) before →
  vid ≠ internal_id →
  get_response_by_id vid = inl e →
  fetch (before ++ vid :: after) results screen = inl e.
Proof.
  intros Hbefore Hvid He. revert results screen.
  induction Hbefore as [|v before Hv _ IH]; intros results screen.
  - cbn. by rewrite bool_decide_eq_false_2, He.
  - cbn [app fetch_requested]. case_bool_decide as Hid; [apply IH|].
    destruct Hv as [?|[r ->]]; [done | apply IH].
Qed.

(** The messages of the loop. *)
Lemma fetch_requested_screen requested_ids results screen results' screen' :
  fetch requested_ids results screen = inr (results', screen') →
  screen `prefix_of` screen'
  ∧ (NoDup screen → NoDup screen')
  ∧ (∀ msg, msg ∈ screen'
            ↔ msg ∈ screen
              ∨ ∃ vid, vid ∈ requested_ids ∧ vid ≠ internal_id
                       ∧ get_response_by_id vid = inr None
                       ∧ msg = not_found_message vid).
Proof.
  revert results screen.
  induction requested_ids as [|vid' requested_ids IH]; intros results screen.
  - cbn. intros [= <- <-]. split_and!; [done..|].
    intros msg. split; [by left|]. intros [?|(vid & []%elem_of_nil & _)]. done.
  - cbn [fetch_requested]. case_bool_decide as Hid.
    + intros (Hprefix & Hnodup & Hmsg)%IH. split_and!; [done..|].
      intros msg. rewrite Hmsg. split.
      * intros [?|(vid & ? & ? & ? & ?)]; [by left|].
        right. exists vid. split_and!; try done. by right.
      * intros [?|(vid & [->|?]%elem_of_cons & ? & ? & ?)];
          [by left | done | right; by exists vid].
    + destruct (get_response_by_id vid') as [e|[r|]] eqn:Hget; [done|..].
      * intros (Hprefix & Hnodup & Hmsg)%IH. split_and!; [done..|].
        intros msg. rewrite Hmsg. split.
        -- intros [?|(vid & ? & ? & ? & ?)]; [by left|].
           right. exists vid. split_and!; try done. by right.
        -- intros [?|(vid & [->|?]%elem_of_cons & ? & Hnone & ?)];
             [by left | congruence | right; by exists vid].
      * intros (Hprefix & Hnodup & Hmsg)%IH. split_and!.
        -- etrans; [apply to_screen_once_prefix | done].
        -- intros ?. by apply Hnodup, to_screen_once_NoDup.
        -- intros msg. rewrite Hmsg, to_screen_once_elem_of. split.
           ++ intros [[?| ->]|(vid & ? & ? & ? & ?)].
              ** by left.
              ** right. exists vid'. split_and!; try done. by left.
              ** right. exists vid. split_and!; try done. by right.
           ++ intros [?|(vid & [->|?]%elem_of_cons & ? & ? & ->)].
              ** left. by left.
              ** left. by right.
              ** right. by exists vid.
Qed.
End fetch_loop.

Section responses_for_langs.
Context (keep_table_matches : list VersionRow → list string).
Context (get_response_by_id : string → exn + option Response).

Lemma get_responses_inr internal_id screen responses screen' :
  _get_responses_for_langs keep_table_matches get_response_by_id internal_id screen
  = inr (responses, screen') →
  ∃ default_response,
    get_response_by_id internal_id = inr (Some default_response)
    ∧ fetch_requested get_response_by_id internal_id default_response
        (keep_table_matches
           (build_lang_table internal_id
              (versions_of (get_meta_from_response default_response))))
        [] screen
      = inr (responses, screen').
Proof.
  unfold _get_responses_for_langs.
  destruct (get_response_by_id internal_id) as [e|[default_response|]]; try done.
  eauto.
Qed.
End responses_for_langs.

(** X1: the responses fetched hold exactly the ids the selector keeps,
    each once; the requested id is bound to the default response and every
    other id to what its fetch returned. *)
Theorem responses_are_the_requested_ids
    (keep_table_matches : list VersionRow → list string)
    (get_response_by_id : string → exn + option Response)
    (internal_id : string) (screen : list string)
    (responses : list (string * option Response)) (screen' : list string) :
  _get_responses_for_langs keep_table_matches get_response_by_id internal_id screen
  = inr (responses, screen') →
  ∃ default_response,
    get_response_by_id internal_id = inr (Some default_response)
    ∧ let requested_ids :=
        keep_table_matches
          (build_lang_table internal_id
             (versions_of (get_meta_from_response default_response))) in
      NoDup (Dict.keys responses)
      ∧ (∀ vid, vid ∈ Dict.keys responses ↔ vid ∈ requested_ids)
      ∧ (internal_id ∈ requested_ids →
         Dict.get internal_id responses = Some (Some default_response))
      ∧ (∀ vid, vid ∈ requested_ids → vid ≠ internal_id →
           ∃ r, get_response_by_id vid = inr r ∧ Dict.get vid responses = Some r).
Proof.
  intros (default_response & Hdefault & Hfetch)%get_responses_inr.
  exists default_response. split; [done|]. intros requested_ids.
  pose proof (fetch_requested_keys _ _ _ _ _ _ _ _ Hfetch) as [Hnodup Hkeys].
  split_and!.
  - apply Hnodup. constructor.
  - intros vid. rewrite Hkeys. cbn. rewrite elem_of_nil. tauto.
  - intros Hin.
    destruct (fetch_requested_get _ _ _ _ _ _ _ _ _ Hfetch Hin) as (x & Hx & Hget).
    by destruct Hx as [[_ ->]|[? _]].
  - intros vid Hin Hvid.
    destruct (fetch_requested_get _ _ _ _ _ _ _ _ _ Hfetch Hin) as (x & Hx & Hget).
    destruct Hx as [[? _]|[_ Hx]]; [done | eauto].
Qed.

Lemma responses_are_the_requested_ids_witness :
  ∃ default_response,
    MoreExamples.A_and_B "A" = inr (Some default_response)
    ∧ NoDup (Dict.keys [("A", Some Examples.episode_A); ("B", Some Examples.episode_B)])
    ∧ Dict.get "A" [("A", Some Examples.episode_A); ("B", Some Examples.episode_B)]
      = Some (Some default_response).
Proof.
  destruct (responses_are_the_requested_ids
              (keep_codes [_DEFAULT_LANG; "en-us"]) MoreExamples.A_and_B "A" []
              [("A", Some Examples.episode_A); ("B", Some Examples.episode_B)] [])
    as (default_response & Hdefault & Hnodup & _ & Hget & _).
  - vm_compute. reflexivity.
  - exists default_response. split_and!; [done..|].
    apply Hget. injection Hdefault as <-. apply (bool_decide_unpack _).
    vm_compute. exact I.
Defined.

(** X2: a fatal error of the fetch of a selected version ends the whole
    resolution with that error, whatever was fetched before it. *)
Theorem fatal_fetch_aborts
    (keep_table_matches : list VersionRow → list string)
    (get_response_by_id : string → exn + option Response)
    (internal_id : string) (screen : list string) (default_response : Response)
    (before : list string) (vid : string) (after : list string) (e : exn) :
  get_response_by_id internal_id = inr (Some default_response) →
  keep_table_matches
    (build_lang_table internal_id
       (versions_of (get_meta_from_response default_response)))
  = before ++ vid :: after →
  Forall (λ v, v = internal_id ∨ ∃ r, get_response_by_id v = inr r) before →
  vid ≠ internal_id →
  get_response_by_id vid = inl e →
  _get_responses_for_langs keep_table_matches get_response_by_id internal_id screen
  = inl e.
Proof.
  intros Hdefault Hids Hbefore Hvid He.
  unfold _get_responses_for_langs. rewrite Hdefault, Hids.
  by apply fetch_requested_fatal.
Qed.

Lemma fatal_fetch_aborts_witness :
  _get_responses_for_langs (keep_codes [_DEFAULT_LANG; "en-us"])
    MoreExamples.A_then_failure "A" []
  = inl (ExtractorError "HTTP Error 500").
Proof.
  apply (fatal_fetch_aborts _ _ _ _ Examples.episode_A ["A"] "B" []).
  - reflexivity.
  - vm_compute. reflexivity.
  - constructor; [by left | constructor].
  - done.
  - reflexivity.
Defined.

(** X3: the fetch prints nothing but the warning of a selected version
    that was not found, keeps what was printed before, and prints no
    message twice. *)
Theorem not_found_is_warned_once
    (keep_table_matches : list VersionRow → list string)
    (get_response_by_id : string → exn + option Response)
    (internal_id : string) (screen : list string)
    (responses : list (string * option Response)) (screen' : list string) :
  _get_responses_for_langs keep_table_matches get_response_by_id internal_id screen
  = inr (responses, screen') →
  screen `prefix_of` screen'
  ∧ (NoDup screen → NoDup screen')
  ∧ (∀ msg, msg ∈ screen'
            ↔ msg ∈ screen
              ∨ ∃ vid, vid ∈ Dict.keys responses ∧ vid ≠ internal_id
                       ∧ get_response_by_id vid = inr None
                       ∧ msg = not_found_message vid).
Proof.
  intros (default_response & Hdefault & Hfetch)%get_responses_inr.
  pose proof (fetch_requested_screen _ _ _ _ _ _ _ _ Hfetch)
    as (Hprefix & Hnodup & Hmsg).
  pose proof (fetch_requested_keys _ _ _ _ _ _ _ _ Hfetch) as [_ Hkeys].
  split_and!; [done..|].
  intros msg. rewrite Hmsg. split.
  - intros [?|(vid & Hin & ?)]; [by left|]. right. exists vid. split; [|done].
    apply Hkeys. by right.
  - intros [?|(vid & Hin & ?)]; [by left|]. right. exists vid. split; [|done].
    apply Hkeys in Hin as [[]%elem_of_nil|?]. done.
Qed.

Lemma not_found_is_warned_once_witness :
  [not_found_message "B"] `prefix_of` [not_found_message "B"]
  ∧ (NoDup [not_found_message "B"] → NoDup [not_found_message "B"]).
Proof.
  destruct (not_found_is_warned_once (keep_codes [_DEFAULT_LANG; "en-us"])
              Examples.only_A "A" [not_found_message "B"]
              [("A", Some Examples.episode_A); ("B", None)] [not_found_message "B"])
    as (Hprefix & Hnodup & _).
  - vm_compute. reflexivity.
  - by split.
Defined.

(** ** The entry point *)

Section fetch_all_found.
Context (get_response_by_id : string → exn + option Response).
Context (internal_id : string) (default_response : Response).


End fetch_all_found.

Section merge_outcomes.
Context (extract_version : string → string → option Response → exn + InfoDict).





End merge_outcomes.





(** ** What the merge keeps *)

Lemma merged_subtitles_dom versions base :
  dom (merged_subtitles versions base)
  = dom base ∪ ⋃ ((λ version, dom (default ∅ (subtitles version))) <$> versions).
Proof.
  unfold merged_subtitles. revert base.
  induction versions as [|version versions IH]; intros base.
  - cbn. by rewrite (right_id_L ∅ (∪)).
  - cbn [fold_left]. rewrite IH. unfold update. rewrite dom_union_L.
    rewrite fmap_cons. cbn [union_list foldr].
    by rewrite (comm_L (∪) _ (dom base)), (assoc_L (∪)).
Qed.

Lemma stamped_formats_length result_as_set version :
  length (stamped_formats result_as_set version)
  = length (default [] (formats version)).
Proof. unfold stamped_formats. by rewrite length_fmap. Qed.

Lemma bind_stamped_length result_as_set versions :
  length (versions ≫= stamped_formats result_as_set)
  = sum_list ((λ version, length (default [] (formats version))) <$> versions).
Proof.
  induction versions as [|version versions IH]; [done|].
  rewrite bind_cons, length_app, stamped_formats_length, IH. done.
Qed.

(** X6: the merge loses and invents nothing: the merged result has the
    members of the main result, as many formats as all versions together,
    and a subtitle entry for exactly the locales that some version has. *)
Theorem merge_keeps_everything
    (extract_version : string → string → option Response → exn + InfoDict)
    (lang internal_id : string) (responses : list (string * option Response))
    (p : string * option Response) (rest : list (string * option Response))
    (result : InfoDict) (versions : list InfoDict) :
  length responses ≠ 1%nat →
  choose_primary internal_id responses = inr (p, rest) →
  extract_version lang p.1 p.2 = inr result →
  Forall2 (λ e version, extract_version lang e.1 e.2 = inr version) rest versions →
  ∃ merged,
    _extract_versions_and_merge_results extract_version lang internal_id responses
    = inr merged
    ∧ meta merged = meta result
    ∧ length (default [] (formats merged))
      = (length (default [] (formats result))
         + sum_list ((λ version, length (default [] (formats version))) <$> versions))%nat
    ∧ dom (default ∅ (subtitles merged))
      = dom (default ∅ (subtitles result))
        ∪ ⋃ ((λ version, dom (default ∅ (subtitles version))) <$> versions).
Proof.
  intros Hlen Hp Hr Hv.
  rewrite several_responses by done.
  rewrite (merge_results_ok _ _ _ _ _ _ _ _ Hp Hr Hv).
  eexists. split; [done|]. cbn. split_and!.
  - done.
  - by rewrite length_app, bind_stamped_length.
  - apply merged_subtitles_dom.
Qed.

Lemma merge_keeps_everything_witness :
  ∃ merged,
    _extract_versions_and_merge_results
      (_extract_version Examples.extract_fields) "" "A" Examples.two_versions
    = inr merged
    ∧ meta merged = fields Examples.episode_A
    ∧ length (default [] (formats merged)) = 2%nat.
Proof.
  destruct (merge_keeps_everything (_extract_version Examples.extract_fields)
              "" "A" Examples.two_versions
              ("A", Some Examples.episode_A) [("B", Some Examples.episode_B)]
              (Examples.info_of "A" Examples.episode_A)
              [Examples.info_of "B" Examples.episode_B])
    as (merged & Hmerged & Hmeta & Hformats & _).
  - cbn. lia.
  - vm_compute. reflexivity.
  - reflexivity.
  - repeat constructor.
  - exists merged. split_and!; [exact Hmerged | exact Hmeta | exact Hformats].
Defined.

Lemma set_difference_subseteq (version_as_set result_as_set : gmap string Value) :
  map_Forall (λ _ x, hashable x = true) version_as_set →
  version_as_set ⊆ result_as_set →
  set_difference version_as_set result_as_set = ∅.
Proof.
  intros Hhashable Hsub. apply map_empty. intros k.
  unfold set_difference. apply map_lookup_filter_None.
  destruct (version_as_set !! k) as [x|] eqn:Hk; [right | by left].
  intros y [= <-]. unfold not_in_set. cbn.
  rewrite (proj1 (map_subseteq_spec _ _) Hsub k x Hk).
  rewrite (proj2 (scalar_eqb_eq x x (Hhashable k x Hk))) by done.
  cbn. tauto.
Qed.

Lemma as_set_hashable info : map_Forall (λ _ x, hashable x = true) (as_set info).
Proof. intros k x Hk. by apply as_set_lookup in Hk as [_ ?]. Qed.

(** X7: a further version whose hashable members are all held, with the
    same values, by the main result adds its formats unchanged. *)
Theorem agreeing_version_is_not_stamped (version result : InfoDict) :
  as_set version ⊆ as_set result →
  stamped_formats (as_set result) version = default [] (formats version).
Proof.
  intros Hsub. unfold stamped_formats.
  rewrite (set_difference_subseteq _ _ (as_set_hashable version) Hsub).
  unfold update. induction (default [] (formats version)) as [|f fs IH]; [done|].
  cbn. by rewrite (left_id_L ∅ (∪)), IH.
Qed.

Lemma agreeing_version_is_not_stamped_witness :
  stamped_formats (as_set (Examples.info_of "A" Examples.episode_A))
    (Examples.info_of "A" Examples.episode_A)
  = [ {[ "format_id" := VStr "A" ]} ].
Proof.
  apply (agreeing_version_is_not_stamped (Examples.info_of "A" Examples.episode_A)
           (Examples.info_of "A" Examples.episode_A)).
  done.
Defined.

(** ** Format extraction: defaults, empty manifests and messages *)

Lemma lower_empty s : PyStr.lower s = "" ↔ s = "".
Proof. by destruct s. Qed.

Section more_extract_formats.
Context (self : Extractor).

Lemma requested_hardsubs_default :
  _configuration_arg self "hardsub" = [] → requested_hardsubs self = [""].
Proof. intros H. unfold requested_hardsubs. by rewrite H. Qed.

Lemma has_url_entry stream_type v :
  has_url v = true → entry_url (stream_entry self stream_type v) ≠ "".
Proof.
  unfold has_url, stream_entry, entry_url, PyStr.truthy. cbn.
  destruct (url v) as [u|]; [|done]. cbn.
  rewrite negb_true_iff. by intros ?%bool_decide_eq_false.
Qed.

Lemma set_length {K V} `{EqDecision K} (k : K) (v : V) d :
  (length (Dict.set k v d) ≤ S (length d))%nat.
Proof.
  induction d as [|[k' v'] d IH]; cbn; [lia|]. case_bool_decide; cbn; lia.
Qed.

Lemma fold_set_length {A K V} `{EqDecision K} (key : A → K) (val : A → V)
    (l : list A) d :
  (length (fold_left (λ d a, Dict.set (key a) (val a) d) l d)
   ≤ length d + length l)%nat.
Proof.
  revert d. induction l as [|a l IH]; intros d; cbn; [lia|].
  etrans; [apply IH|]. pose proof (set_length (key a) (val a) d). lia.
Qed.

Lemma kept_streams_nil stream_response :
  (∀ stream_type streams' v,
     (stream_type, streams') ∈ streams stream_response ++ data0 stream_response →
     stream_type ∈ requested_formats self →
     v ∈ streams' → has_url v = false) →
  kept_streams self stream_response = [].
Proof.
  intros Hnone. apply elem_of_nil_inv.
  intros [stream_type v] (streams' & Hitem & Hreq & Hv & Hurl)%kept_streams_elem_of.
  cbn in *. rewrite (Hnone stream_type streams' v) in Hurl; done.
Qed.

End more_extract_formats.

(** X8: with the default hardsub request and an untagged stream
    available, an HLS stream is expanded through its playlist exactly when
    it is untagged, and every hardsub HLS stream gives the single
    rendition made from its manifest URL. *)
Theorem default_hardsub_expands_untagged_only
    (self : Extractor) (stream_response : StreamResponse) (e : Entry) :
  let available := available_formats self stream_response in
  _configuration_arg self "hardsub" = [] →
  "" ∈ Dict.keys available →
  e ∈ Dict.values available →
  PyStr.endswith (entry_stream_type e) "hls" = true →
  adaptive_formats self (full_format_langs self available) e
  = Some (if bool_decide (entry_hardsub_lang e = "")
          then _extract_m3u8_formats self (entry_url e) (entry_format_id e)
          else [_m3u8_meta_format self (entry_url e) (entry_format_id e)]).
Proof.
  intros available Hdefault Huntagged He Hhls.
  rewrite adaptive_formats_hls by done.
  unfold full_format_langs, restricts_expansion.
  rewrite (requested_hardsubs_default self Hdefault).
  rewrite (bool_decide_eq_true_2 ("" ∈ Dict.keys available)) by done.
  rewrite (bool_decide_eq_false_2 ("all" ∈ [""]))
    by (by intros ?%list_elem_of_singleton).
  cbn [andb negb]. f_equal.
  rewrite (bool_decide_ext (PyStr.lower (entry_hardsub_lang e) ∈ [""])
             (entry_hardsub_lang e = "")); [done|].
  rewrite list_elem_of_singleton. apply lower_empty.
Qed.

Lemma default_hardsub_expands_untagged_only_witness :
  adaptive_formats (Examples.extractor [] [])
    (full_format_langs (Examples.extractor [] [])
       (available_formats (Examples.extractor [] []) Examples.hls_manifest))
    ("adaptive_hls", "adaptive_hls-hardsub-en-US", "en-US", "https://cdn/hls-en")
  = Some [ _m3u8_meta_format (Examples.extractor [] [])
             "https://cdn/hls-en" "adaptive_hls-hardsub-en-US" ].
Proof.
  apply (default_hardsub_expands_untagged_only (Examples.extractor [] [])
           Examples.hls_manifest
           ("adaptive_hls", "adaptive_hls-hardsub-en-US", "en-US", "https://cdn/hls-en")).
  - reflexivity.
  - apply (bool_decide_unpack _). vm_compute. exact I.
  - apply (bool_decide_unpack _). vm_compute. exact I.
  - vm_compute. reflexivity.
Defined.

(** X9: a manifest in which no stream of a requested type has a URL gives
    no format and no message. *)
Theorem no_usable_stream_gives_nothing
    (self : Extractor) (stream_response : StreamResponse) (screen : list string) :
  (∀ stream_type streams' v,
     (stream_type, streams') ∈ streams stream_response ++ data0 stream_response →
     stream_type ∈ requested_formats self →
     v ∈ streams' → has_url v = false) →
  _extract_formats self stream_response screen = ([], screen).
Proof.
  intros Hnone. unfold _extract_formats.
  rewrite available_formats_assignments, (kept_streams_nil self _ Hnone). done.
Qed.

Lemma no_usable_stream_gives_nothing_witness :
  _extract_formats (Examples.extractor ["adaptive_dash"] []) Examples.hls_manifest []
  = ([], []).
Proof.
  apply no_usable_stream_gives_nothing.
  intros stream_type streams' v Hitem Hreq.
  assert (stream_type = "adaptive_hls") as ->.
  { revert Hitem. cbn. by intros [= -> _]%list_elem_of_singleton. }
  revert Hreq. vm_compute. by intros ?%list_elem_of_singleton.
Defined.


(** X11: every available format comes from a stream of a requested type
    with a non-empty URL and is filed under the hardsub language of that
    stream; a hardsub language is available exactly when such a stream
    has it, and there are no more available formats than such streams. *)
Theorem available_formats_come_from_streams
    (self : Extractor) (stream_response : StreamResponse) :
  let available := available_formats self stream_response in
  (∀ h e,
     (h, e) ∈ available →
     entry_hardsub_lang e = h
     ∧ entry_url e ≠ ""
     ∧ entry_stream_type e ∈ requested_formats self
     ∧ ∃ sv, sv ∈ kept_streams self stream_response
             ∧ e = stream_entry self sv.1 sv.2)
  ∧ (∀ h,
       h ∈ Dict.keys available
       ↔ ∃ sv, sv ∈ kept_streams self stream_response
               ∧ default "" (hardsub_locale sv.2) = h)
  ∧ (length available ≤ length (kept_streams self stream_response))%nat.
Proof.
  intros available. split_and!.
  - intros h e (sv & Hsv & -> & ->)%available_formats_elem_of.
    pose proof Hsv as (streams' & _ & Hreq & _ & Hurl)%kept_streams_elem_of.
    split_and!; [done | by apply has_url_entry | done | eauto].
  - intros h. split.
    + unfold Dict.keys. intros ([h' e] & -> & Hin)%list_elem_of_fmap.
      apply available_formats_elem_of in Hin as (sv & Hsv & -> & _). eauto.
    + intros (sv & Hsv & Hh).
      destruct (Dict.get h available) as [e|] eqn:Hget.
      * apply get_Some_elem in Hget. unfold Dict.keys.
        apply list_elem_of_fmap. by exists (h, e).
      * subst available. rewrite available_formats_get in Hget.
        apply fmap_None, last_None in Hget.
        assert (sv ∈ filter (λ sv : string * Stream,
                               default "" (hardsub_locale sv.2) = h)
                       (kept_streams self stream_response)) as Hin
          by by apply list_elem_of_filter.
        rewrite Hget in Hin. by apply elem_of_nil in Hin.
  - subst available. rewrite available_formats_assignments.
    etrans; [apply (fold_set_length
                      (λ sv : string * Stream, default "" (hardsub_locale sv.2))
                      (λ sv : string * Stream, stream_entry self sv.1 sv.2))|].
    done.
Qed.

(** ** The API calls *)





Ltac session_simpl :=
  cbn [_QUERY _BASIC_AUTH _AUTH_HEADERS _AUTH_REFRESH requests
       set_query set_basic_auth set_auth log fst snd] in *.

Section session_properties.
Context {Page Json Time Token : Type}.
Context (w : World (Page := Page) (Json := Json) (Time := Time) (Token := Token)).
Implicit Types s : Session (Time := Time).

Lemma basic_auth_of_set a s :
  basic_auth_of (set_basic_auth ("Basic " ++ a)%string s) = Some ("Basic " ++ a)%string.
Proof. done. Qed.

(** What [_update_query] does to the session, whatever its outcome. *)
Lemma update_query_session lang s :
  let s' := (_update_query w lang s).2 in
  (∀ l q, _QUERY s !! l = Some q → _QUERY s' !! l = Some q)
  ∧ (∀ l, l ≠ lang → _QUERY s' !! l = _QUERY s !! l)
  ∧ (∀ a, basic_auth_of s = Some a → _BASIC_AUTH s' = _BASIC_AUTH s)
  ∧ _AUTH_HEADERS s' = _AUTH_HEADERS s
  ∧ _AUTH_REFRESH s' = _AUTH_REFRESH s
  ∧ (requests s' = requests s ∨ requests s' = requests s ++ [GetPage lang]).
Proof.
  unfold _update_query.
  destruct (decide (is_Some (_QUERY s !! lang))) as [Hcached|Hcached].
  { rewrite bool_decide_eq_true_2 by done. session_simpl. split_and!; auto. }
  rewrite bool_decide_eq_false_2 by done.
  assert (∀ q l x, _QUERY s !! l = Some x → <[lang:=q]> (_QUERY s) !! l = Some x)
    as Hkeep.
  { intros q l x Hl. rewrite lookup_insert_ne; [done|]. intros <-.
    apply Hcached. by eexists. }
  assert (∀ q l, l ≠ lang → <[lang:=q]> (_QUERY s) !! l = _QUERY s !! l)
    as Hother.
  { intros q l Hl. by rewrite lookup_insert_ne. }
  destruct (_download_webpage w lang) as [e|webpage];
    [session_simpl; split_and!; auto|].
  destruct (initial_state_query w webpage) as [e|q];
    [session_simpl; split_and!; auto|].
  change (basic_auth_of (set_query lang q (log (GetPage lang) s)))
    with (basic_auth_of s).
  destruct (basic_auth_of s) as [a|] eqn:Hbasic.
  { session_simpl. split_and!; auto. }
  destruct (cx_api_param w webpage (is_logged_in w)) as [e|param];
    session_simpl; split_and!; auto; done.
Qed.

Lemma update_query_cached lang s :
  is_Some (_QUERY s !! lang) → _update_query w lang s = (inr (), s).
Proof. intros H. unfold _update_query. by rewrite bool_decide_eq_true_2. Qed.

Lemma update_query_success lang s :
  (_update_query w lang s).1 = inr () →
  is_Some (_QUERY (_update_query w lang s).2 !! lang).
Proof.
  unfold _update_query.
  destruct (decide (is_Some (_QUERY s !! lang))) as [Hcached|Hcached].
  { by rewrite bool_decide_eq_true_2. }
  rewrite bool_decide_eq_false_2 by done.
  destruct (_download_webpage w lang) as [e|webpage]; [done|].
  destruct (initial_state_query w webpage) as [e|q]; [done|].
  destruct (basic_auth_of _); cbn.
  - intros _. rewrite lookup_insert_eq. by eexists.
  - destruct (cx_api_param w webpage (is_logged_in w)); [done|]. cbn.
    intros _. rewrite lookup_insert_eq. by eexists.
Qed.
(** What [_update_auth] does to the session, whatever its outcome. *)
Lemma update_auth_session s :
  let s' := (_update_auth w s).2 in
  _QUERY s' = _QUERY s
  ∧ _BASIC_AUTH s' = _BASIC_AUTH s
  ∧ (requests s' = requests s
     ∨ ∃ basic_auth, basic_auth_of s = Some basic_auth
         ∧ requests s' = requests s ++ [PostToken basic_auth (grant_type w)])
  ∧ ((_update_auth w s).1 = inr () →
     is_Some (_AUTH_HEADERS s') ∧ is_Some (_AUTH_REFRESH s')).
Proof.
  unfold _update_auth, token_is_valid.
  destruct (_AUTH_HEADERS s) as [h|] eqn:Hh.
  - destruct (_AUTH_REFRESH s) as [t|] eqn:Ht; [|session_simpl; split_and!; auto; done].
    destruct (still_valid w t).
    { session_simpl. rewrite Hh, Ht. split_and!; auto. }
    destruct (basic_auth_of s) as [a|] eqn:Ha; [|session_simpl; split_and!; auto; done].
    destruct (_download_token w a (grant_type w)) as [e|token];
      [session_simpl; split_and!; eauto; done|].
    destruct (token_type w token), (access_token w token);
      session_simpl; split_and!; eauto; done.
  - destruct (basic_auth_of s) as [a|] eqn:Ha; [|session_simpl; split_and!; auto; done].
    destruct (_download_token w a (grant_type w)) as [e|token];
      [session_simpl; split_and!; eauto; done|].
    destruct (token_type w token), (access_token w token);
      session_simpl; split_and!; eauto; done.
Qed.

Lemma update_auth_valid s h t :
  _AUTH_HEADERS s = Some h → _AUTH_REFRESH s = Some t → still_valid w t = true →
  _update_auth w s = (inr (), s).
Proof.
  intros Hh Ht Hvalid. unfold _update_auth, token_is_valid.
  by rewrite Hh, Ht, Hvalid.
Qed.

Lemma update_auth_assertion s :
  _AUTH_HEADERS s = None → basic_auth_of s = None →
  _update_auth w s = (inl AssertionError, s).
Proof.
  intros Hh Ha. unfold _update_auth, token_is_valid. by rewrite Hh, Ha.
Qed.

(** The outcomes of [_call_base_api]: the requests it adds are at most a
    page and a token request, followed by the JSON request if both
    updates went through and the language has a locale. *)
Lemma call_base_api_cases endpoint lang query s :
  let r := _call_base_api w endpoint lang query s in
  let url := (_BASE_URL ++ base_endpoint endpoint)%string in
  ∃ pre,
    Forall (λ request, is_json_request request = false) pre
    ∧ (length pre ≤ 2)%nat
    ∧ _QUERY r.2 = _QUERY (_update_query w lang s).2
    ∧ ((∃ e, r.1 = inl e ∧ requests r.2 = requests s ++ pre)
       ∨ (∃ authorization cached,
            _AUTH_HEADERS r.2 = Some authorization
            ∧ _QUERY r.2 !! lang = Some (Some cached)
            ∧ requests r.2
              = requests s ++ pre
                  ++ [GetJson url (Some authorization) (query ∪ cached)]
            ∧ r.1 = _download_json w url (Some authorization) (query ∪ cached))).
Proof.
  unfold _call_base_api.
  pose proof (update_query_session lang s) as (_ & _ & _ & _ & _ & Hreq1).
  pose proof (update_query_success lang s) as Hcached.
  destruct (_update_query w lang s) as [[e|[]] s1]; session_simpl.
  { destruct Hreq1 as [Hreq1|Hreq1].
    - exists []. split_and!; [by constructor|cbn; lia|done|].
      left. eexists. split; [done|by rewrite app_nil_r].
    - exists [GetPage lang]. split_and!; [by repeat constructor|cbn; lia|done|].
      left. by eexists. }
  destruct (Hcached eq_refl) as [q Hq].
  pose proof (update_auth_session s1) as (Hquery & _ & Hreq2 & Hauth).
  assert (∃ pre, Forall (λ request, is_json_request request = false) pre
            ∧ (length pre ≤ 2)%nat
            ∧ requests (_update_auth w s1).2 = requests s ++ pre)
    as (pre & Hpre & Hlen & Hrequests).
  { destruct Hreq1 as [Hreq1|Hreq1], Hreq2 as [Hreq2|(a & _ & Hreq2)];
      rewrite Hreq2, Hreq1.
    - exists []. split_and!; [by constructor|cbn; lia|by rewrite app_nil_r].
    - exists [PostToken a (grant_type w)].
      split_and!; [by repeat constructor|cbn; lia|done].
    - exists [GetPage lang].
      split_and!; [by repeat constructor|cbn; lia|done].
    - exists [GetPage lang; PostToken a (grant_type w)].
      split_and!; [by repeat constructor|cbn; lia|].
      by rewrite <- app_assoc. }
  exists pre.
  destruct (_update_auth w s1) as [[e|[]] s2]; session_simpl.
  { split_and!; [done..|]. left. by eexists. }
  destruct (Hauth eq_refl) as [[h Hh] _].
  rewrite Hquery, Hq.
  destruct q as [cached|]; session_simpl.
  - split_and!; [done..|]. right. exists h, cached.
    rewrite Hh, Hquery, Hq, Hrequests. split_and!; try done.
    by rewrite <- app_assoc.
  - split_and!; [done..|]. left. by eexists.
Qed.
End session_properties.

Section session_theorems.
Context {Page Json Time Token : Type}.
Context (w : World (Page := Page) (Json := Json) (Time := Time) (Token := Token)).
Implicit Types s : Session (Time := Time).

(** X13: once [_update_query] has gone through for a language, the
    language is cached and asking again, at any later time, does nothing
    and requests nothing; if the language was not cached before, the one
    request made is for its main page and a truthy basic authorization
    is in place afterwards. *)
Theorem query_is_fetched_once (w' : World (Page := Page) (Json := Json) (Time := Time) (Token := Token)) lang s :
  (_update_query w lang s).1 = inr () →
  let s' := (_update_query w lang s).2 in
  is_Some (_QUERY s' !! lang)
  ∧ _update_query w' lang s' = (inr (), s')
  ∧ (_QUERY s !! lang = None →
     is_Some (basic_auth_of s')
     ∧ requests s' = requests s ++ [GetPage lang]).
Proof.
  intros Hok s'. pose proof (update_query_success w lang s Hok) as Hcached.
  split_and!; [done|by apply update_query_cached|].
  intros Hfresh. subst s'. revert Hok. clear Hcached. unfold _update_query.
  rewrite bool_decide_eq_false_2
    by (rewrite Hfresh; by intros [? ?]).
  destruct (_download_webpage w lang) as [e|webpage]; [done|].
  destruct (initial_state_query w webpage) as [e|q]; [done|].
  change (basic_auth_of (set_query lang q (log (GetPage lang) s)))
    with (basic_auth_of s).
  destruct (basic_auth_of s) as [a|] eqn:Hbasic.
  { intros _. session_simpl. split; [|done].
    change (basic_auth_of (set_query lang q (log (GetPage lang) s)))
      with (basic_auth_of s).
    rewrite Hbasic. by eexists. }
  destruct (cx_api_param w webpage (is_logged_in w)) as [e|param]; [done|].
  intros _. session_simpl. split; [|done]. by eexists.
Qed.

(** X14: whatever its outcome, [_update_query] keeps every cached
    language, leaves the entries of the other languages, a truthy basic
    authorization, the authorization header and its refresh time as they
    are, and requests at most the main page of the language. *)
Theorem update_query_keeps_the_session lang s :
  let s' := (_update_query w lang s).2 in
  (∀ l q, _QUERY s !! l = Some q → _QUERY s' !! l = Some q)
  ∧ (∀ l, l ≠ lang → _QUERY s' !! l = _QUERY s !! l)
  ∧ (∀ a, basic_auth_of s = Some a → _BASIC_AUTH s' = _BASIC_AUTH s)
  ∧ _AUTH_HEADERS s' = _AUTH_HEADERS s
  ∧ _AUTH_REFRESH s' = _AUTH_REFRESH s
  ∧ (requests s' = requests s ∨ requests s' = requests s ++ [GetPage lang]).
Proof. apply update_query_session. Qed.

(** X15: [_update_auth] does nothing while the token is valid; otherwise
    it requests at most one token, with the truthy basic authorization
    and the grant type of the login state; it never touches the cached
    languages or the basic authorization, and when it goes through, the
    authorization header and its refresh time are both set. *)
Theorem update_auth_refreshes_the_token s :
  let s' := (_update_auth w s).2 in
  (∀ h t, _AUTH_HEADERS s = Some h → _AUTH_REFRESH s = Some t →
          still_valid w t = true → _update_auth w s = (inr (), s))
  ∧ _QUERY s' = _QUERY s
  ∧ _BASIC_AUTH s' = _BASIC_AUTH s
  ∧ (requests s' = requests s
     ∨ ∃ basic_auth, basic_auth_of s = Some basic_auth
         ∧ requests s' = requests s ++ [PostToken basic_auth (grant_type w)])
  ∧ ((_update_auth w s).1 = inr () →
     is_Some (_AUTH_HEADERS s') ∧ is_Some (_AUTH_REFRESH s')).
Proof.
  split; [apply update_auth_valid|apply update_auth_session].
Qed.

(** X16: when the main page of a language holds the initial state but
    the client id cannot be read from it, the first call fails with that
    error and leaves the language cached without a basic authorization;
    the same call made again, at any later time, requests nothing and
    fails the assertion of [_update_auth]. *)
Theorem stale_cache_fails_the_assertion
    (w' : World (Page := Page) (Json := Json) (Time := Time) (Token := Token))
    endpoint lang query webpage q e :
  _download_webpage w lang = inr webpage →
  initial_state_query w webpage = inr q →
  cx_api_param w webpage (is_logged_in w) = inl e →
  let first := _call_base_api w endpoint lang query initial_session in
  first.1 = inl e
  ∧ requests first.2 = [GetPage lang]
  ∧ _call_base_api w' endpoint lang query first.2 = (inl AssertionError, first.2).
Proof.
  intros Hpage Hstate Hparam.
  assert (_update_query w lang initial_session
          = (inl e, set_query lang q (log (GetPage lang) initial_session)))
    as Hfirst.
  { unfold _update_query. rewrite bool_decide_eq_false_2.
    - by rewrite Hpage, Hstate, Hparam.
    - cbn. rewrite lookup_empty. by intros [? ?]. }
  unfold _call_base_api at 1. rewrite Hfirst. cbn zeta. split_and!; [done..|].
  cbn [fst snd]. unfold _call_base_api.
  rewrite update_query_cached
    by (session_simpl; rewrite lookup_insert_eq; by eexists).
  by rewrite update_auth_assertion.
Qed.

(** X17: besides at most one page and one token request, [_call_base_api]
    makes one JSON request or none.  It makes none exactly when it fails
    before; otherwise the request is the last one, goes to the base URL
    followed by the endpoint, carries the authorization header of the
    session and the cached query of the language overridden by the
    arguments of the call, and its outcome is the outcome of the call. *)
Theorem json_request_is_authorised endpoint lang query s :
  let r := _call_base_api w endpoint lang query s in
  let url := (_BASE_URL ++ base_endpoint endpoint)%string in
  ∃ pre,
    Forall (λ request, is_json_request request = false) pre
    ∧ (length pre ≤ 2)%nat
    ∧ _QUERY r.2 = _QUERY (_update_query w lang s).2
    ∧ ((∃ e, r.1 = inl e ∧ requests r.2 = requests s ++ pre)
       ∨ (∃ authorization cached,
            _AUTH_HEADERS r.2 = Some authorization
            ∧ _QUERY r.2 !! lang = Some (Some cached)
            ∧ requests r.2
              = requests s ++ pre
                  ++ [GetJson url (Some authorization) (query ∪ cached)]
            ∧ r.1 = _download_json w url (Some authorization) (query ∪ cached))).
Proof. apply call_base_api_cases. Qed.

(** X18: [_call_api] leaves the session as the base call on the
    normalised path does; it returns [None] exactly when that call ends
    in an HTTP error 404, returns a reply exactly when that call returns
    the same truthy reply, turns a falsy reply into an [ExtractorError]
    and lets every other error through. *)
Theorem call_api_is_None_for_404 api_endpoint path lang note query s :
  let base := _call_base_api w (api_path api_endpoint path) lang query s in
  let r := _call_api w api_endpoint path lang note query s in
  r.2 = base.2
  ∧ (r.1 = inr None ↔ base.1 = inl (HTTPError 404))
  ∧ (∀ result, r.1 = inr (Some result) ↔ base.1 = inr (Some result))
  ∧ (base.1 = inr None →
     r.1 = inl (Raised (ExtractorError (unexpected_response_message note))))
  ∧ (∀ e, base.1 = inl e → e ≠ HTTPError 404 → r.1 = inl e).
Proof.
  unfold _call_api. cbn zeta.
  destruct (_call_base_api w (api_path api_endpoint path) lang query s)
    as [[e|[result|]] s'].
  - destruct e as [code| | |e].
    + destruct (decide (code = 404%Z)) as [->|Hcode].
      * rewrite bool_decide_eq_true_2 by done. cbn.
        split_and!; [done|done|by split|done|]. by intros e [= <-].
      * rewrite bool_decide_eq_false_2 by done. cbn.
        split_and!; [done|split; [done|congruence]|by split|done|].
        by intros e [= <-].
    + cbn. split_and!; [done|by split|by split|done|]. by intros e [= <-].
    + cbn. split_and!; [done|by split|by split|done|]. by intros e [= <-].
    + cbn. split_and!; [done|by split|by split|done|]. by intros e' [= <-].
  - cbn. split_and!; [done|by split|done|done|done].
  - cbn. split_and!; [done|by split|by split|done|done].
Qed.

(** X19: a language whose main page ends in an HTTP error 404 makes
    [_call_api] return [None] after this one request: no token and no
    JSON is asked for, and the language is not cached. *)
Theorem missing_page_gives_None api_endpoint path lang note query s :
  _QUERY s !! lang = None →
  _download_webpage w lang = inl (HTTPError 404) →
  _call_api w api_endpoint path lang note query s
  = (inr None, log (GetPage lang) s).
Proof.
  intros Hfresh Hpage. unfold _call_api, _call_base_api, _update_query.
  rewrite bool_decide_eq_false_2 by (rewrite Hfresh; by intros [? ?]).
  by rewrite Hpage.
Qed.

(** X20: on a session that holds the locale of the language and a token
    that is still valid, [_call_base_api] makes the JSON request and
    nothing else, with the header and the locale the session holds. *)
Theorem valid_token_is_reused endpoint lang query s authorization refresh cached :
  _QUERY s !! lang = Some (Some cached) →
  _AUTH_HEADERS s = Some authorization →
  _AUTH_REFRESH s = Some refresh →
  still_valid w refresh = true →
  let url := (_BASE_URL ++ base_endpoint endpoint)%string in
  let request := GetJson url (Some authorization) (query ∪ cached) in
  _call_base_api w endpoint lang query s
  = (_download_json w url (Some authorization) (query ∪ cached), log request s).
Proof.
  intros Hcached Hh Ht Hvalid. unfold _call_base_api.
  rewrite update_query_cached by (rewrite Hcached; by eexists).
  rewrite (update_auth_valid w s authorization refresh) by done.
  rewrite Hcached. session_simpl. by rewrite Hh.
Qed.
End session_theorems.

Lemma query_is_fetched_once_witness :
  is_Some
    (_QUERY (_update_query (SessionExamples.site 0) "" initial_session).2 !! "")
  ∧ _update_query (SessionExamples.site 1000) ""
      (_update_query (SessionExamples.site 0) "" initial_session).2
    = (inr (), (_update_query (SessionExamples.site 0) "" initial_session).2)
  ∧ (_QUERY (initial_session (Time := Z)) !! "" = None →
     is_Some
       (basic_auth_of (_update_query (SessionExamples.site 0) "" initial_session).2)
     ∧ requests (_update_query (SessionExamples.site 0) "" initial_session).2
       = requests (initial_session (Time := Z)) ++ [GetPage ""]).
Proof.
  apply (query_is_fetched_once (SessionExamples.site 0) (SessionExamples.site 1000)
           "" initial_session).
  reflexivity.
Defined.

Lemma stale_cache_fails_the_assertion_witness :
  (_call_base_api (SessionExamples.site_without_config 0) "objects/A" ""
     {[ "ratings" := "true" ]} initial_session).1
  = inl (Raised (ExtractorError "Unable to extract app config"))
  ∧ requests
      (_call_base_api (SessionExamples.site_without_config 0) "objects/A" ""
         {[ "ratings" := "true" ]} initial_session).2
    = [GetPage ""]
  ∧ _call_base_api (SessionExamples.site 1000) "objects/A" ""
      {[ "ratings" := "true" ]}
      (_call_base_api (SessionExamples.site_without_config 0) "objects/A" ""
         {[ "ratings" := "true" ]} initial_session).2
    = (inl AssertionError,
       (_call_base_api (SessionExamples.site_without_config 0) "objects/A" ""
          {[ "ratings" := "true" ]} initial_session).2).
Proof.
  apply (stale_cache_fails_the_assertion (SessionExamples.site_without_config 0)
           (SessionExamples.site 1000) "objects/A" "" {[ "ratings" := "true" ]}
           "" (Some {[ "locale" := "en-US" ]})
           (Raised (ExtractorError "Unable to extract app config")));
    reflexivity.
Defined.

Lemma missing_page_gives_None_witness :
  _call_api (SessionExamples.failing_site 404) "cms" "objects/A" "" "object info"
    {[ "ratings" := "true" ]} initial_session
  = (inr None, log (GetPage "") initial_session).
Proof.
  apply (missing_page_gives_None (SessionExamples.failing_site 404));
    reflexivity.
Defined.

Lemma valid_token_is_reused_witness :
  _call_base_api (SessionExamples.site 100) "index/v2" "" ∅
    SessionExamples.ready_session
  = (_download_json (SessionExamples.site 100)
       (_BASE_URL ++ base_endpoint "index/v2")%string (Some "Bearer secret")
       (∅ ∪ {[ "locale" := "en-US" ]}),
     log (GetJson (_BASE_URL ++ base_endpoint "index/v2")%string
            (Some "Bearer secret") (∅ ∪ {[ "locale" := "en-US" ]}))
       SessionExamples.ready_session).
Proof.
  apply (valid_token_is_reused (SessionExamples.site 100) "index/v2" "" ∅
           SessionExamples.ready_session "Bearer secret" 290%Z
           {[ "locale" := "en-US" ]});
    reflexivity.
Defined.

(** ** Subtitles *)

Section subtitles_properties.
Context {Subtitle : Type} (track : Subtitle → Value).
Implicit Types items : list (string * Subtitle).

Lemma fold_tracks_absent items subtitles locale :
  locale ∉ items.*1 →
  fold_left (add_track track) items subtitles !! locale = subtitles !! locale.
Proof.
  revert subtitles. induction items as [|[l sub] items IH]; intros subtitles Hl; [done|].
  rewrite fmap_cons in Hl. apply not_elem_of_cons in Hl as [Hne Hl].
  cbn [fold_left]. rewrite IH by done. unfold add_track. cbn [fst snd].
  by rewrite lookup_insert_ne.
Qed.

Lemma fold_tracks_last items1 items2 subtitles locale sub :
  locale ∉ items2.*1 →
  fold_left (add_track track) (items1 ++ (locale, sub) :: items2) subtitles !! locale
  = Some (VList [track sub]).
Proof.
  intros Hl. rewrite fold_left_app. cbn [fold_left].
  rewrite fold_tracks_absent by done.
  unfold add_track at 1. cbn [fst snd]. by rewrite lookup_insert_eq.
Qed.

Lemma elem_of_unique_key items locale sub :
  NoDup items.*1 → (locale, sub) ∈ items →
  ∃ items1 items2, items = items1 ++ (locale, sub) :: items2 ∧ locale ∉ items2.*1.
Proof.
  intros Hnodup Hin. apply list_elem_of_split in Hin as (items1 & items2 & ->).
  exists items1, items2. split; [done|].
  rewrite fmap_app, fmap_cons in Hnodup. apply NoDup_app in Hnodup as (_ & _ & Hnodup).
  by apply NoDup_cons in Hnodup as [? _].
Qed.

(** X21: the subtitles of a stream response hold one single-track list
    per locale found under [subtitles] or under [meta.subtitles]: the
    track of [meta.subtitles] where the locale is there, the top-level
    track otherwise, and nothing for any other locale. *)
Theorem meta_subtitles_override (top meta : list (string * Subtitle)) :
  NoDup top.*1 → NoDup meta.*1 →
  let subtitles := _extract_subtitles track top meta in
  (∀ locale sub, (locale, sub) ∈ meta →
                 subtitles !! locale = Some (VList [track sub]))
  ∧ (∀ locale sub, (locale, sub) ∈ top → locale ∉ meta.*1 →
                   subtitles !! locale = Some (VList [track sub]))
  ∧ (∀ locale, locale ∉ top.*1 → locale ∉ meta.*1 → subtitles !! locale = None).
Proof.
  intros Htop Hmeta subtitles. subst subtitles. unfold _extract_subtitles.
  split_and!.
  - intros locale sub Hin.
    destruct (elem_of_unique_key meta locale sub Hmeta Hin)
      as (items1 & items2 & -> & Hl).
    rewrite app_assoc. by apply fold_tracks_last.
  - intros locale sub Hin Hl.
    destruct (elem_of_unique_key top locale sub Htop Hin)
      as (items1 & items2 & -> & Hl').
    rewrite <- app_assoc. cbn. apply fold_tracks_last.
    rewrite fmap_app. intros [?|?]%elem_of_app; tauto.
  - intros locale Hl Hl'. rewrite fold_tracks_absent; [done|].
    rewrite fmap_app. intros [?|?]%elem_of_app; tauto.
Qed.
End subtitles_properties.

Lemma meta_subtitles_override_witness :
  (∀ locale sub, (locale, sub) ∈ MoreExamples.meta_subtitles →
     _extract_subtitles MoreExamples.track MoreExamples.top_subtitles
       MoreExamples.meta_subtitles !! locale
     = Some (VList [MoreExamples.track sub]))
  ∧ (∀ locale sub, (locale, sub) ∈ MoreExamples.top_subtitles →
       locale ∉ MoreExamples.meta_subtitles.*1 →
       _extract_subtitles MoreExamples.track MoreExamples.top_subtitles
         MoreExamples.meta_subtitles !! locale
       = Some (VList [MoreExamples.track sub]))
  ∧ (∀ locale, locale ∉ MoreExamples.top_subtitles.*1 →
       locale ∉ MoreExamples.meta_subtitles.*1 →
       _extract_subtitles MoreExamples.track MoreExamples.top_subtitles
         MoreExamples.meta_subtitles !! locale
       = None).
Proof.
  apply (meta_subtitles_override MoreExamples.track MoreExamples.top_subtitles
           MoreExamples.meta_subtitles).
  - apply (bool_decide_unpack _). by vm_compute.
  - apply (bool_decide_unpack _). by vm_compute.
Defined.

(** ** Audio languages *)

(** X22: the audio languages of a version descriptor are the entries of
    [audio_locales] after [lang_formatter], blank ones included, and
    [audio_locale] after [lang_formatter] unless that is blank, and
    nothing else. *)
Theorem audio_languages_are_normalised (data : Version) (lang : string) :
  lang ∈ _get_audio_langs_from_data data
  ↔ (∃ v, v ∈ audio_locales data ∧ lang = lang_formatter v)
    ∨ (∃ v, audio_locale data = Some v ∧ lang = lang_formatter v ∧ lang ≠ "").
Proof.
  unfold _get_audio_langs_from_data. cbn zeta.
  rewrite elem_of_union, !elem_of_list_to_set, list_elem_of_fmap.
  assert (lang ∈ match audio_locale data with
                 | Some v => wrap_in_list (lang_formatter v)
                 | None => []
                 end
          ↔ ∃ v, audio_locale data = Some v ∧ lang = lang_formatter v ∧ lang ≠ "")
    as Hsingle.
  { destruct (audio_locale data) as [v|]; cycle 1.
    { rewrite elem_of_nil. split; [done|]. by intros (? & ? & _). }
    unfold wrap_in_list, PyStr.truthy.
    destruct (decide (lang_formatter v = "")) as [Hblank|Hblank].
    - rewrite bool_decide_eq_true_2 by done. cbn. rewrite elem_of_nil.
      split; [done|]. intros (v' & [= <-] & -> & Hne). done.
    - rewrite bool_decide_eq_false_2 by done. cbn. rewrite list_elem_of_singleton.
      split.
      + intros ->. by exists v.
      + by intros (v' & [= <-] & -> & _). }
  rewrite Hsingle. split.
  - intros [(v & -> & Hv)|Hv]; [left; by exists v|by right].
  - intros [(v & Hv & ->)|Hv]; [left; by exists v|by right].
Qed.

(** ** Logging in *)

(** X23: [_perform_login] requests nothing when the cookie is there; it
    asks for a session id first and sends the account and the password at
    most once, only after the reply was [ok], together with the session id
    of that reply; it returns normally after a login only if the login
    reply was [ok] and the cookie is there afterwards. *)
Theorem login_sends_the_password_once {Json SessionId : Type}
    (site : LoginSite (Json := Json) (SessionId := SessionId))
    (username password : string) :
  let r := _perform_login site username password in
  (logged_in_at_start site = true → r = (inr (), []))
  ∧ (r.2 = [] ∨ r.2 = [GetSessionId]
     ∨ ∃ session_id, r.2 = [GetSessionId; PostLogin username password session_id])
  ∧ (∀ a p session_id,
       PostLogin a p session_id ∈ r.2 →
       a = username ∧ p = password
       ∧ ∃ reply, get_upsell_data site = inr reply
                  ∧ code_is_ok site reply = Some true
                  ∧ session_id_of site reply = Some session_id)
  ∧ (r.1 = inr () → logged_in_at_start site = false →
     logged_in_after_login site = true
     ∧ ∃ session_id reply,
         r.2 = [GetSessionId; PostLogin username password session_id]
         ∧ login site username password session_id = inr reply
         ∧ code_is_ok site reply = Some true).
Proof.
  unfold _perform_login. cbn zeta.
  assert (∀ a p (sid : SessionId), PostLogin a p sid ∉ [GetSessionId (SessionId := SessionId)])
    as Hnone.
  { intros a p sid Hin. apply list_elem_of_singleton in Hin. done. }
  assert (∀ a p (sid : SessionId), PostLogin (SessionId := SessionId) a p sid ∉ [])
    as Hnil.
  { intros a p sid Hin. by apply elem_of_nil in Hin. }
  destruct (logged_in_at_start site) eqn:Hstart.
  { cbn. split_and!; [done|by left| |done]. intros a p sid Hin. by apply Hnil in Hin. }
  destruct (get_upsell_data site) as [e|upsell_response] eqn:Hupsell.
  { cbn. split_and!; [done|by right; left| |done].
    intros a p sid Hin. by apply Hnone in Hin. }
  destruct (code_is_ok site upsell_response) as [[]|] eqn:Hcode; cycle 1.
  { cbn. split_and!; [done|by right; left| |done].
    intros a p sid Hin. by apply Hnone in Hin. }
  { cbn. split_and!; [done|by right; left| |done].
    intros a p sid Hin. by apply Hnone in Hin. }
  destruct (session_id_of site upsell_response) as [session_id|] eqn:Hsid; cycle 1.
  { cbn. split_and!; [done|by right; left| |done].
    intros a p sid Hin. by apply Hnone in Hin. }
  assert (∀ a p sid,
            PostLogin a p sid ∈ [GetSessionId] ++ [PostLogin username password session_id] →
            a = username ∧ p = password
            ∧ ∃ reply, (inr upsell_response : api_exn + Json) = inr reply
                       ∧ code_is_ok site reply = Some true
                       ∧ session_id_of site reply = Some sid) as Hsent.
  { intros a p sid Hin. cbn in Hin.
    apply elem_of_cons in Hin as [Hin|Hin]; [done|].
    apply list_elem_of_singleton in Hin. injection Hin as -> -> ->.
    split_and!; [done..|]. by exists upsell_response. }
  assert ([GetSessionId] ++ [PostLogin username password session_id]
          = [GetSessionId; PostLogin username password session_id]) as Hrequests
    by done.
  destruct (login site username password session_id) as [e|login_response] eqn:Hlogin.
  { cbn [fst snd]. split_and!; [done|right; right; by eexists|done|done]. }
  destruct (code_is_ok site login_response) as [[]|] eqn:Hok; cycle 1.
  { destruct (message_of site login_response); cbn [fst snd];
      (split_and!; [done|right; right; by eexists|done|done]). }
  { cbn [fst snd]. split_and!; [done|right; right; by eexists|done|done]. }
  destruct (logged_in_after_login site) eqn:Hafter; cbn [fst snd].
  - split_and!; [done|right; right; by eexists|done|].
    intros _ _. split; [done|]. by exists session_id, login_response.
  - split_and!; [done|right; right; by eexists|done|done].
Qed.

(** ** The signed CMS calls *)

Section cms_properties.
Context {Page Json Time Token Policy : Type}.
Context (w : CmsWorld (Page := Page) (Json := Json) (Time := Time)
               (Token := Token) (Policy := Policy)).
Implicit Types (c : Cms (Time := Time)) (s : Session (Time := Time)).

Lemma policy_is_valid_expiry c : policy_is_valid w c = true → is_Some (_CMS_EXPIRY c).
Proof. unfold policy_is_valid. destruct (_CMS_EXPIRY c); [by eexists|done]. Qed.

(** The stored policy stays complete through [update_signed_policy],
    and is there once it went through. *)
Lemma update_signed_policy_ready lang c s :
  cms_ready c →
  cms_ready (update_signed_policy w lang c s).2.1
  ∧ ((update_signed_policy w lang c s).1 = inr () →
     is_Some (_CMS_EXPIRY (update_signed_policy w lang c s).2.1)
     ∧ is_Some (_CMS_QUERY (update_signed_policy w lang c s).2.1)
     ∧ is_Some (_CMS_BUCKET (update_signed_policy w lang c s).2.1)).
Proof.
  intros Hready. unfold update_signed_policy.
  destruct (policy_is_valid w c) eqn:Hvalid.
  { cbn. split; [done|]. intros _.
    apply policy_is_valid_expiry in Hvalid. by destruct (Hready Hvalid). }
  unfold retrieve_signed_policy.
  destruct (_call_base_api (api w) "index/v2" lang ∅ s) as [[e|reply] s'];
    [done|].
  destruct (cms_web w reply) as [e|response]; [done|].
  destruct (signature_query w response) as [query|]; [|done].
  destruct (bucket_of w response) as [bucket|].
  - destruct (expiry_of w response) as [e|expiry]; cbn.
    + split; [|done]. intros _. split; by eexists.
    + split; [intros _; split; by eexists|]. intros _. split_and!; by eexists.
  - cbn. split; [|done]. intros Hexpiry. destruct (Hready Hexpiry) as [_ Hbucket].
    split; [by eexists|done].
Qed.

(** X24: while the stored policy is valid, [_call_cms_api_signed] is the
    base call on the path under the stored bucket, unless the path
    starts with [/cms/v2] already, with the stored signature as query;
    the policy is left as it is. *)
Theorem signed_policy_is_reused path lang c s query bucket :
  policy_is_valid w c = true →
  _CMS_QUERY c = Some query →
  _CMS_BUCKET c = Some bucket →
  _call_cms_api_signed w path lang c s
  = ((_call_base_api (api w) (cms_path bucket path) lang query s).1,
     (c, (_call_base_api (api w) (cms_path bucket path) lang query s).2)).
Proof.
  intros Hvalid Hquery Hbucket. unfold _call_cms_api_signed, update_signed_policy.
  rewrite Hvalid, Hbucket, Hquery. unfold cms_path.
  by destruct (startswith path "/cms/v2").
Qed.

(** X25: a signed call keeps the stored policy complete: starting with
    none or with a complete one, either the update of the policy fails
    and the call fails with its error, or the expiry, the signature and
    the bucket are all stored and the call is the base call on the path
    under the stored bucket with the stored signature; the policy is
    complete afterwards. *)
Theorem signed_call_keeps_the_policy_complete path lang c s :
  cms_ready c →
  let out := _call_cms_api_signed w path lang c s in
  cms_ready out.2.1
  ∧ ((∃ e, update_signed_policy w lang c s = (inl e, out.2) ∧ out.1 = inl e)
     ∨ (∃ c' s' query bucket,
          update_signed_policy w lang c s = (inr (), (c', s'))
          ∧ is_Some (_CMS_EXPIRY c')
          ∧ _CMS_QUERY c' = Some query
          ∧ _CMS_BUCKET c' = Some bucket
          ∧ out
            = ((_call_base_api (api w) (cms_path bucket path) lang query s').1,
               (c', (_call_base_api (api w) (cms_path bucket path) lang query s').2)))).
Proof.
  intros Hready out. subst out.
  destruct (update_signed_policy_ready lang c s Hready) as [Hready' Hset].
  unfold _call_cms_api_signed.
  destruct (update_signed_policy w lang c s) as [[e|[]] [c' s']]; cbn [fst snd] in *.
  { split; [done|]. left. by exists e. }
  destruct (Hset eq_refl) as (Hexpiry & [query Hquery] & [bucket Hbucket]).
  rewrite Hbucket, Hquery.
  assert ((if startswith path "/cms/v2" then inr path
           else inr ("/cms/v2" ++ bucket ++ "/" ++ path)%string)
          = (inr (cms_path bucket path) : api_exn + string)) as ->.
  { unfold cms_path. by destruct (startswith path "/cms/v2"). }
  cbn [fst snd]. split; [done|]. right. by exists c', s', query, bucket.
Qed.
End cms_properties.

Lemma signed_policy_is_reused_witness :
  _call_cms_api_signed (SessionExamples.cms_site 100) "objects/A/streams" ""
    SessionExamples.ready_cms SessionExamples.ready_session
  = ((_call_base_api (api (SessionExamples.cms_site 100))
        (cms_path "/US/M2/-" "objects/A/streams") ""
        {[ "Policy" := "p"; "Signature" := "s"; "Key-Pair-Id" := "k" ]}
        SessionExamples.ready_session).1,
     (SessionExamples.ready_cms,
      (_call_base_api (api (SessionExamples.cms_site 100))
         (cms_path "/US/M2/-" "objects/A/streams") ""
         {[ "Policy" := "p"; "Signature" := "s"; "Key-Pair-Id" := "k" ]}
         SessionExamples.ready_session).2)).
Proof.
  apply (signed_policy_is_reused (SessionExamples.cms_site 100)); reflexivity.
Defined.

Lemma signed_call_keeps_the_policy_complete_witness :
  cms_ready
    (_call_cms_api_signed (SessionExamples.cms_site 100) "objects/A/streams" ""
       initial_cms initial_session).2.1
  ∧ ((∃ e,
        update_signed_policy (SessionExamples.cms_site 100) "" initial_cms
          initial_session
        = (inl e,
           (_call_cms_api_signed (SessionExamples.cms_site 100)
              "objects/A/streams" "" initial_cms initial_session).2)
        ∧ (_call_cms_api_signed (SessionExamples.cms_site 100)
             "objects/A/streams" "" initial_cms initial_session).1
          = inl e)
     ∨ (∃ c' s' query bucket,
          update_signed_policy (SessionExamples.cms_site 100) "" initial_cms
            initial_session
          = (inr (), (c', s'))
          ∧ is_Some (_CMS_EXPIRY c')
          ∧ _CMS_QUERY c' = Some query
          ∧ _CMS_BUCKET c' = Some bucket
          ∧ _call_cms_api_signed (SessionExamples.cms_site 100)
              "objects/A/streams" "" initial_cms initial_session
            = ((_call_base_api (api (SessionExamples.cms_site 100))
                  (cms_path bucket "objects/A/streams") "" query s').1,
               (c',
                (_call_base_api (api (SessionExamples.cms_site 100))
                   (cms_path bucket "objects/A/streams") "" query s').2)))).
Proof.
  apply (signed_call_keeps_the_policy_complete (SessionExamples.cms_site 100)
           "objects/A/streams" "" initial_cms initial_session).
  intros [expiry Hexpiry]. discriminate Hexpiry.
Defined.

Section missing_locale.
Context {Page Json Time Token : Type}.
Context (w : World (Page := Page) (Json := Json) (Time := Time) (Token := Token)).
Implicit Types s : Session (Time := Time).

(** X26: a language cached without a locale, as [_update_query] leaves
    it when the initial state of its main page holds none, makes every
    later [_call_base_api] fail without a JSON request: with the error
    of [_update_auth] if there is one, with a [TypeError] otherwise; the
    language stays cached as it is. *)
Theorem language_without_locale_fails endpoint lang query s :
  _QUERY s !! lang = Some None →
  let r := _call_base_api w endpoint lang query s in
  r.2 = (_update_auth w s).2
  ∧ _QUERY r.2 !! lang = Some None
  ∧ r.1 = match (_update_auth w s).1 with
          | inl e => inl e
          | inr _ => inl TypeError
          end.
Proof.
  intros Hcached. unfold _call_base_api.
  rewrite update_query_cached by (rewrite Hcached; by eexists).
  pose proof (update_auth_session w s) as (Hquery & _).
  destruct (_update_auth w s) as [[e|[]] s']; cbn [fst snd] in *.
  { by rewrite Hquery. }
  rewrite Hquery, Hcached. cbn [fst snd]. by rewrite Hquery.
Qed.
End missing_locale.

Lemma language_without_locale_fails_witness :
  (_call_base_api (SessionExamples.site 1000) "objects/A" "" ∅
     (_call_base_api (SessionExamples.site_without_locale 0) "objects/A" "" ∅
        initial_session).2).2
  = (_update_auth (SessionExamples.site 1000)
       (_call_base_api (SessionExamples.site_without_locale 0) "objects/A" "" ∅
          initial_session).2).2
  ∧ _QUERY
      (_call_base_api (SessionExamples.site 1000) "objects/A" "" ∅
         (_call_base_api (SessionExamples.site_without_locale 0) "objects/A" "" ∅
            initial_session).2).2 !! ""
    = Some None
  ∧ (_call_base_api (SessionExamples.site 1000) "objects/A" "" ∅
       (_call_base_api (SessionExamples.site_without_locale 0) "objects/A" "" ∅
          initial_session).2).1
    = match
        (_update_auth (SessionExamples.site 1000)
           (_call_base_api (SessionExamples.site_without_locale 0) "objects/A" "" ∅
              initial_session).2).1
      with
      | inl e => inl e
      | inr _ => inl TypeError
      end.
Proof.
  apply (language_without_locale_fails (SessionExamples.site 1000) "objects/A" "" ∅
           (_call_base_api (SessionExamples.site_without_locale 0) "objects/A" "" ∅
              initial_session).2).
  reflexivity.
Defined.
